(** * FabAI: the task queue and the approval engine

    A shallow embedding of [src/queue/task-queue.ts] and
    [src/workflow/approval-engine.ts] (with the records of [src/types])
    and the properties of the scheduling and approval core.

    Conventions of the embedding:
    - a JS [Map<string, V>] is a [gmap string V]; a JS array is a [list];
    - [Task] objects are shared between the caller, the backlog and the
      in-flight map, so the queue holds references into a store of objects;
      the [dependencies] array of a task is an object of its own, which
      [addTask] writes in place and which task objects may share, so a task
      holds a reference into a store of arrays;
    - [new Date()] is an argument of the operation that reads the clock;
    - logging and the emitter's notifications do not touch the state of
      either class and are left out (listeners are taken not to re-enter,
      and the caller not to write to a task it has submitted). *)

From Stdlib Require Import ZArith Lia Sorted.
From Equations Require Import Equations.
From stdpp Require Import gmap strings list fin_maps functions.

#[local] Set Warnings "-clear-no-such-hyp".

(** ** Records of [src/types] *)

Module TaskType.
Inductive t := website_update | file_analysis | code_review | asset_process.
End TaskType.

Module TaskPriority.
Inductive t := low | medium | high | urgent.
End TaskPriority.

Module TaskStatus.
Inductive t := queued | processing | waiting_approval | completed | failed.

#[global] Instance eq_dec : EqDecision t.
Proof. solve_decision. Defined.
End TaskStatus.

Module UserRole.
Inductive t := superadmin | admin | developer.

#[global] Instance eq_dec : EqDecision t.
Proof. solve_decision. Defined.
End UserRole.

Module WorkflowStatus.
Inductive t := pending | approved | rejected | expired.

#[global] Instance eq_dec : EqDecision t.
Proof. solve_decision. Defined.
End WorkflowStatus.

(** The fields [requesterId], [websiteTarget], [estimatedTime],
    [description] and [context] of a task are never read or written by the
    queue and are not part of the record. Dates are their time values.
    [dependencies] is a reference to the array of ids: the queue pushes
    onto that array in place, and nothing keeps two task objects from
    holding the same array. [resources] is only read, and is held by
    value. *)
Module Task.
Definition aref := nat.

Record t := mk {
  id : string;
  type : TaskType.t;
  priority : TaskPriority.t;
  dependencies : aref;
  resources : list string;
  status : TaskStatus.t;
  createdAt : Z;
  startedAt : option Z;
  completedAt : option Z;
}.

Definition set_status (s : TaskStatus.t) (x : t) : t :=
  mk (id x) (type x) (priority x) (dependencies x) (resources x) s
     (createdAt x) (startedAt x) (completedAt x).
Definition set_startedAt (d : Z) (x : t) : t :=
  mk (id x) (type x) (priority x) (dependencies x) (resources x) (status x)
     (createdAt x) (Some d) (completedAt x).
Definition set_completedAt (d : Z) (x : t) : t :=
  mk (id x) (type x) (priority x) (dependencies x) (resources x) (status x)
     (createdAt x) (startedAt x) (Some d).
End Task.

Module User.
Record t := mk {
  userId : string;
  name : string;
  role : UserRole.t;
  permissions : list string;
}.
End User.

Module ApprovalStage.
Record t := mk {
  level : Z;
  role : UserRole.t;
  required : bool;
  timeout : Z;
  approvedBy : option string;
  approvedAt : option Z;
}.

Definition approve (userId : string) (now : Z) (s : t) : t :=
  mk (level s) (role s) (required s) (timeout s) (Some userId) (Some now).
End ApprovalStage.

Module ApprovalWorkflow.
Record t := mk {
  taskId : string;
  stages : list ApprovalStage.t;
  currentStage : nat;
  requiredApprovals : nat;
  status : WorkflowStatus.t;
}.

Definition set_stages (l : list ApprovalStage.t) (w : t) : t :=
  mk (taskId w) l (currentStage w) (requiredApprovals w) (status w).
Definition set_currentStage (i : nat) (w : t) : t :=
  mk (taskId w) (stages w) i (requiredApprovals w) (status w).
Definition set_status (s : WorkflowStatus.t) (w : t) : t :=
  mk (taskId w) (stages w) (currentStage w) (requiredApprovals w) s.
End ApprovalWorkflow.

(** ** [TaskQueue] *)

Module TaskQueue.

(** A reference to a [Task] object. The caller creates the objects and
    passes references to [addTask]; the queue reads and writes the objects
    through them. [heap] gives the current value of every object, and
    [arrays] the current content of every [dependencies] array. *)
Definition ref := nat.
Definition aref := Task.aref.

Record t := mk {
  heap : ref → Task.t;
  arrays : aref → list string;
  queue : list ref;
  processing : gmap string ref;
  maxConcurrent : Z;
  resourceLocks : gmap string string;
}.

Definition set_heap (h : ref → Task.t) (q : t) : t :=
  mk h (arrays q) (queue q) (processing q) (maxConcurrent q) (resourceLocks q).
Definition set_arrays (a : aref → list string) (q : t) : t :=
  mk (heap q) a (queue q) (processing q) (maxConcurrent q) (resourceLocks q).
Definition set_queue (l : list ref) (q : t) : t :=
  mk (heap q) (arrays q) l (processing q) (maxConcurrent q) (resourceLocks q).
Definition set_processing (p : gmap string ref) (q : t) : t :=
  mk (heap q) (arrays q) (queue q) p (maxConcurrent q) (resourceLocks q).
Definition set_resourceLocks (l : gmap string string) (q : t) : t :=
  mk (heap q) (arrays q) (queue q) (processing q) (maxConcurrent q) l.

(** [task.dependencies], read through the reference. *)
Definition dependenciesOf (q : t) (task : Task.t) : list string :=
  arrays q (Task.dependencies task).

(** [new TaskQueue(maxConcurrent)] in a store of objects [h] and arrays
    [a]; the default ceiling is 3. *)
Definition new (h : ref → Task.t) (a : aref → list string)
    (maxConcurrent : Z) : t :=
  mk h a [] ∅ maxConcurrent ∅.
Definition new_default (h : ref → Task.t) (a : aref → list string) : t :=
  new h a 3.

(** JS truthiness of the result of [Map.get] on a map of strings:
    [undefined] and the empty string are falsy. *)
Definition truthy (v : option string) : bool :=
  match v with
  | Some s => negb (bool_decide (s = ""))
  | None => false
  end.

Definition priorityWeight (p : TaskPriority.t) : Z :=
  match p with
  | TaskPriority.urgent => 4
  | TaskPriority.high => 3
  | TaskPriority.medium => 2
  | TaskPriority.low => 1
  end.

(** The comparator handed to [sort] in [sortQueue]. *)
Definition compareTasks (a b : Task.t) : Z :=
  let priorityDiff :=
    (priorityWeight (Task.priority b) - priorityWeight (Task.priority a))%Z in
  if decide (priorityDiff ≠ 0%Z) then priorityDiff
  else (Task.createdAt a - Task.createdAt b)%Z.

(** [Array.prototype.sort] is a stable sort by the comparator: [x] goes
    before [y] when [cmp x y < 0] and elements that compare equal keep
    their order. *)
Fixpoint sort_insert {A} (cmp : A → A → Z) (x : A) (l : list A) : list A :=
  match l with
  | [] => [x]
  | y :: l' => if (cmp x y <? 0)%Z then x :: y :: l'
               else y :: sort_insert cmp x l'
  end.

Definition sort {A} (cmp : A → A → Z) (l : list A) : list A :=
  foldl (λ acc x, sort_insert cmp x acc) [] l.

Definition sortQueue (q : t) : t :=
  set_queue (sort (λ a b, compareTasks (heap q a) (heap q b)) (queue q)) q.

(** [[...new Set(l)]]: the elements in order of first occurrence. *)
Definition uniq (l : list string) : list string :=
  foldl (λ seen x, if bool_decide (x ∈ seen) then seen else seen ++ [x]) [] l.

(** [lockingTaskId && lockingTaskId !== task.id], giving the locking id. *)
Definition lockingConflict (q : t) (task : Task.t) (resource : string)
  : option string :=
  let lockingTaskId := resourceLocks q !! resource in
  if truthy lockingTaskId
     && negb (bool_decide (lockingTaskId = Some (Task.id task)))
  then lockingTaskId else None.

Definition checkResourceConflicts (q : t) (task : Task.t) : list string :=
  let conflicts := omap (lockingConflict q task) (Task.resources task) in
  uniq conflicts.

(** [this.processing.get(depId) || this.queue.find((t) => t.id === depId)] *)
Definition lookupTask (q : t) (depId : string) : option ref :=
  match processing q !! depId with
  | Some dep => Some dep
  | None => List.find (λ r, bool_decide (Task.id (heap q r) = depId)) (queue q)
  end.

Definition incompleteDeps (q : t) (task : Task.t) : list string :=
  List.filter
    (λ depId, match lookupTask q depId with
              | Some dep =>
                  negb (bool_decide
                          (Task.status (heap q dep) = TaskStatus.completed))
              | None => false
              end)
    (dependenciesOf q task).

Definition canProcessTask (q : t) (task : Task.t) : bool :=
  if (0 <? length (incompleteDeps q task))%nat then false
  else forallb (λ resource, negb (bool_decide
                                    (is_Some (lockingConflict q task resource))))
               (Task.resources task).

Definition lockResources (task : Task.t) (locks : gmap string string)
  : gmap string string :=
  foldl (λ locks resource, <[resource := Task.id task]> locks)
        locks (Task.resources task).

Definition unlockResources (task : Task.t) (locks : gmap string string)
  : gmap string string :=
  foldl (λ locks resource,
           if bool_decide (locks !! resource = Some (Task.id task))
           then delete resource locks else locks)
        locks (Task.resources task).

Definition processNext (now : Z) (q : t) : t :=
  if (maxConcurrent q <=? Z.of_nat (size (processing q)))%Z then q
  else
    match List.find (λ r, canProcessTask q (heap q r)) (queue q) with
    | None => q
    | Some r =>
        let nextTask := heap q r in
        (* Remove from queue *)
        let queue' :=
          List.filter
            (λ r', negb (bool_decide (Task.id (heap q r') = Task.id nextTask)))
            (queue q) in
        (* Lock resources *)
        let locks' := lockResources nextTask (resourceLocks q) in
        (* Start processing *)
        let nextTask' :=
          Task.set_startedAt now
            (Task.set_status TaskStatus.processing nextTask) in
        mk (<[r := nextTask']> (heap q)) (arrays q) queue'
           (<[Task.id nextTask := r]> (processing q))
           (maxConcurrent q) locks'
    end.

(** [task.dependencies.push(...conflicts)] writes the array the task
    holds, whoever else holds it. *)
Definition addTask (task : ref) (now : Z) (q : t) : t :=
  (* Check for resource conflicts *)
  let conflicts := checkResourceConflicts q (heap q task) in
  let q :=
    if (0 <? length conflicts)%nat
    then set_arrays (<[Task.dependencies (heap q task) :=
                         dependenciesOf q (heap q task) ++ conflicts]>
                       (arrays q)) q
    else q in
  let q := set_queue (queue q ++ [task]) q in
  let q := sortQueue q in
  processNext now q.

(** [completeTask(taskId, status)]: [now] is the clock read for
    [completedAt], [now'] the one read by the [processNext] that follows. *)
Definition completeTask (taskId : string) (status : TaskStatus.t)
                        (now now' : Z) (q : t) : t :=
  match processing q !! taskId with
  | None => q
  | Some r =>
      let task := Task.set_completedAt now (Task.set_status status (heap q r)) in
      let q := set_heap (<[r := task]> (heap q)) q in
      (* Unlock resources *)
      let q := set_resourceLocks (unlockResources task (resourceLocks q)) q in
      (* Remove from processing *)
      let q := set_processing (delete taskId (processing q)) q in
      (* Try to process next tasks *)
      processNext now' q
  end.

(** [completeTask(taskId)], the status left to its default. *)
Definition completeTask_default (taskId : string) (now now' : Z) (q : t) : t :=
  completeTask taskId TaskStatus.completed now now' q.

Definition failTask (taskId : string) (now now' : Z) (q : t) : t :=
  match processing q !! taskId with
  | None => q
  | Some r =>
      let task :=
        Task.set_completedAt now
          (Task.set_status TaskStatus.failed (heap q r)) in
      let q := set_heap (<[r := task]> (heap q)) q in
      let q := set_resourceLocks (unlockResources task (resourceLocks q)) q in
      let q := set_processing (delete taskId (processing q)) q in
      processNext now' q
  end.

Fixpoint findIndex {A} (p : A → bool) (l : list A) : Z :=
  match l with
  | [] => -1
  | x :: l' => if p x then 0
               else let i := findIndex p l' in
                    if (i =? -1)%Z then -1 else (i + 1)%Z
  end.

Definition getTaskPosition (taskId : string) (q : t) : Z :=
  let index := findIndex (λ r, bool_decide (Task.id (heap q r) = taskId))
                         (queue q) in
  if (index =? -1)%Z then -1 else (index + 1)%Z.

Definition getEstimatedWaitTime (taskId : string) (q : t) : Z :=
  let position := getTaskPosition taskId q in
  if (position =? -1)%Z then 0
  else let avgTaskTime := (15 * 60 * 1000)%Z in (position * avgTaskTime)%Z.

(** The calls a client can make, and the states they lead to. *)
Inductive Call :=
| AddTask (task : ref) (now : Z)
| CompleteTask (taskId : string) (status : TaskStatus.t) (now now' : Z)
| FailTask (taskId : string) (now now' : Z)
| ProcessNext (now : Z).

Definition run (c : Call) (q : t) : t :=
  match c with
  | AddTask task now => addTask task now q
  | CompleteTask taskId status now now' => completeTask taskId status now now' q
  | FailTask taskId now now' => failTask taskId now now' q
  | ProcessNext now => processNext now q
  end.

Inductive reachable (q0 : t) : t → Prop :=
| reachable_init : reachable q0 q0
| reachable_run q c : reachable q0 q → reachable q0 (run c q).

End TaskQueue.

(** ** [ApprovalEngine] *)

Module ApprovalEngine.

Record t := mk {
  workflows : gmap string ApprovalWorkflow.t;
  users : gmap string User.t;
}.

(** The [Error]s the class throws, one constructor per message. The
    specification's [UnknownWorkflow] is [WorkflowNotFound], its
    [UnknownUser] is [UserNotFound] and [NotAuthorized], and its
    [Forbidden] is [CannotApprove] and [OnlySuperadmin]. *)
Inductive Error :=
| WorkflowNotFound (taskId : string)
| UserNotFound (userId : string)
| NotAuthorized (userId : string)
| NoCurrentStage
| CannotApprove (userId : string) (role : UserRole.t) (level : Z)
                (requires : UserRole.t)
| OnlySuperadmin.

Inductive Outcome (A : Type) :=
| Return (a : A)
| Throw (e : Error).
Arguments Return {A} a.
Arguments Throw {A} e.

(** A method is a state transformer that returns or throws; a throw keeps
    whatever the method had written before it (JS has no rollback). *)
Definition M (A : Type) : Type := t → t * Outcome A.

Definition ret {A} (a : A) : M A := λ e, (e, Return a).
Definition throw {A} (err : Error) : M A := λ e, (e, Throw err).
Definition bind {A B} (m : M A) (k : A → M B) : M B :=
  λ e, match m e with
       | (e', Return a) => k a e'
       | (e', Throw err) => (e', Throw err)
       end.
Definition gets {A} (f : t → A) : M A := λ e, (e, Return (f e)).
Definition modify (f : t → t) : M unit := λ e, (f e, Return tt).

Declare Scope engine_scope.
Delimit Scope engine_scope with engine.
Notation "'do' x <- m ;; k" := (bind m (λ x, k))
  (at level 10, x name, m at level 99, k at level 200) : engine_scope.
Local Open Scope engine_scope.

(** [const x = map.get(k); if (!x) throw err] *)
Definition getOrThrow {A} (o : option A) (err : Error) : M A :=
  match o with Some a => ret a | None => throw err end.

(** A write to the workflow object that [this.workflows] holds under
    [taskId]: the object after the write replaces the one before. *)
Definition store (taskId : string) (workflow : ApprovalWorkflow.t) : M unit :=
  modify (λ e, mk (<[taskId := workflow]> (workflows e)) (users e)).

Definition new (us : list User.t) : t :=
  mk ∅ (foldl (λ m user, <[User.userId user := user]> m) ∅ us).

Definition buildApprovalStages (requesterRole : UserRole.t)
  : list ApprovalStage.t :=
  let stages := [] in
  let stages :=
    if decide (requesterRole = UserRole.developer)
    then stages ++ [ApprovalStage.mk 1 UserRole.developer true
                      (30 * 60 * 1000) None None]
    else stages in
  let stages := stages ++ [ApprovalStage.mk 2 UserRole.admin true
                             (60 * 60 * 1000) None None] in
  let stages := stages ++ [ApprovalStage.mk 3 UserRole.superadmin false
                             (2 * 60 * 60 * 1000) None None] in
  stages.

Definition createWorkflow (taskId requesterId : string)
  : M ApprovalWorkflow.t :=
  do requester <- (do e <- gets users ;; getOrThrow (e !! requesterId)
                                   (UserNotFound requesterId)) ;;
  let stages := buildApprovalStages (User.role requester) in
  let workflow :=
    ApprovalWorkflow.mk taskId stages 0
      (length (filter (λ s, ApprovalStage.required s = true) stages))
      WorkflowStatus.pending in
  do _ <- store taskId workflow ;;
  ret workflow.

Definition canApprove (user : User.t) (stage : ApprovalStage.t) : bool :=
  if decide (User.role user = UserRole.superadmin) then true
  else if bool_decide (User.role user = UserRole.admin)
          && (bool_decide (ApprovalStage.role stage = UserRole.admin)
              || bool_decide (ApprovalStage.role stage = UserRole.developer))
  then true
  else if bool_decide (User.role user = UserRole.developer)
          && bool_decide (ApprovalStage.role stage = UserRole.developer)
  then true
  else false.

Definition inspect {A} (a : A) : {b | a = b} := exist _ a eq_refl.

(** [advanceWorkflow] on the workflow object: the object after the call
    and the returned flag. [stages !! i = None] is
    [i >= workflow.stages.length]. The recursion stops because
    [currentStage] grows towards the length of [stages]. *)
Equations? advanceWorkflow (workflow : ApprovalWorkflow.t)
  : ApprovalWorkflow.t * bool
  by wf (length (ApprovalWorkflow.stages workflow)
         - ApprovalWorkflow.currentStage workflow) lt :=
advanceWorkflow workflow
  with inspect (ApprovalWorkflow.stages workflow
                  !! (ApprovalWorkflow.currentStage workflow + 1)) := {
  | exist _ None Hnext =>
      (ApprovalWorkflow.set_status WorkflowStatus.approved workflow, true)
  | exist _ (Some nextStage) Hnext =>
      if negb (ApprovalStage.required nextStage)
      then advanceWorkflow
             (ApprovalWorkflow.set_currentStage
                (ApprovalWorkflow.currentStage workflow + 1) workflow)
      else (ApprovalWorkflow.set_currentStage
              (ApprovalWorkflow.currentStage workflow + 1) workflow, false) }.
Proof.
  apply lookup_lt_Some in Hnext. simpl. lia.
Qed.

Definition approve (taskId userId : string) (now : Z) : M bool :=
  do workflow <- (do ws <- gets workflows ;;
                  getOrThrow (ws !! taskId) (WorkflowNotFound taskId)) ;;
  do user <- (do us <- gets users ;;
              getOrThrow (us !! userId) (NotAuthorized userId)) ;;
  do currentStage <-
    getOrThrow (ApprovalWorkflow.stages workflow
                  !! ApprovalWorkflow.currentStage workflow) NoCurrentStage ;;
  do _ <- (if negb (canApprove user currentStage)
           then throw (CannotApprove userId (User.role user)
                         (ApprovalStage.level currentStage)
                         (ApprovalStage.role currentStage))
           else ret tt) ;;
  (* currentStage.approvedBy = userId; currentStage.approvedAt = new Date() *)
  let workflow :=
    ApprovalWorkflow.set_stages
      (<[ApprovalWorkflow.currentStage workflow :=
           ApprovalStage.approve userId now currentStage]>
         (ApprovalWorkflow.stages workflow)) workflow in
  do _ <- store taskId workflow ;;
  (* return await this.advanceWorkflow(workflow) *)
  do _ <- store taskId (advanceWorkflow workflow).1 ;;
  ret (advanceWorkflow workflow).2.

Definition reject (taskId userId reason : string) : M unit :=
  do workflow <- (do ws <- gets workflows ;;
                  getOrThrow (ws !! taskId) (WorkflowNotFound taskId)) ;;
  do user <- (do us <- gets users ;;
              getOrThrow (us !! userId) (UserNotFound userId)) ;;
  store taskId (ApprovalWorkflow.set_status WorkflowStatus.rejected workflow).

Definition emergencyApprove (taskId userId : string) : M bool :=
  do workflow <- (do ws <- gets workflows ;;
                  getOrThrow (ws !! taskId) (WorkflowNotFound taskId)) ;;
  do us <- gets users ;;
  do _ <- match us !! userId with
          | Some user =>
              if decide (User.role user ≠ UserRole.superadmin)
              then throw OnlySuperadmin else ret tt
          | None => throw OnlySuperadmin
          end ;;
  do _ <- store taskId
            (ApprovalWorkflow.set_status WorkflowStatus.approved workflow) ;;
  ret true.

Definition getWorkflow (taskId : string) (e : t) : option ApprovalWorkflow.t :=
  workflows e !! taskId.

Definition getCurrentStage (taskId : string) (e : t) : option ApprovalStage.t :=
  match workflows e !! taskId with
  | None => None
  | Some workflow =>
      ApprovalWorkflow.stages workflow !! ApprovalWorkflow.currentStage workflow
  end.

Definition addUser (user : User.t) (e : t) : t :=
  mk (workflows e) (<[User.userId user := user]> (users e)).

Definition removeUser (userId : string) (e : t) : t :=
  mk (workflows e) (delete userId (users e)).

Definition cleanup (taskId : string) (e : t) : t :=
  mk (delete taskId (workflows e)) (users e).

(** [getNextApprovers]: the registered users that may approve the current
    stage. A [gmap] does not keep the insertion order a JS [Map] iterates
    in, so the order of the list is that of [map_to_list]; only membership
    is meaningful. *)
Definition getNextApprovers (taskId : string) (e : t) : list User.t :=
  match getCurrentStage taskId e with
  | None => []
  | Some stage =>
      List.filter (λ user, canApprove user stage)
                  (snd <$> map_to_list (users e))
  end.

(** The calls a client can make, and the states they lead to. A call
    that throws leaves the state the method had reached. *)
Inductive Call :=
| CreateWorkflow (taskId requesterId : string)
| Approve (taskId userId : string) (now : Z)
| Reject (taskId userId reason : string)
| EmergencyApprove (taskId userId : string)
| AddUser (user : User.t)
| RemoveUser (userId : string)
| Cleanup (taskId : string).

Definition run (c : Call) (e : t) : t :=
  match c with
  | CreateWorkflow taskId requesterId => (createWorkflow taskId requesterId e).1
  | Approve taskId userId now => (approve taskId userId now e).1
  | Reject taskId userId reason => (reject taskId userId reason e).1
  | EmergencyApprove taskId userId => (emergencyApprove taskId userId e).1
  | AddUser user => addUser user e
  | RemoveUser userId => removeUser userId e
  | Cleanup taskId => cleanup taskId e
  end.

Inductive reachable (e0 : t) : t → Prop :=
| reachable_init : reachable e0 e0
| reachable_run e c : reachable e0 e → reachable e0 (run c e).

End ApprovalEngine.

(** * Vocabulary of the properties and sample data *)

Section ApprovalEngineVocabulary.
Import ApprovalEngine.

(** The three stages [buildApprovalStages] can build, not yet approved. *)
Definition developerStage : ApprovalStage.t :=
  ApprovalStage.mk 1 UserRole.developer true 1800000 None None.
Definition adminStage : ApprovalStage.t :=
  ApprovalStage.mk 2 UserRole.admin true 3600000 None None.
Definition superadminStage : ApprovalStage.t :=
  ApprovalStage.mk 3 UserRole.superadmin false 7200000 None None.

(** The status of the workflow stored under [taskId], if there is one. *)
Definition statusOf (e : t) (taskId : string) : option WorkflowStatus.t :=
  ApprovalWorkflow.status <$> workflows e !! taskId.

(** Three sample users, one of each role, and the engine built on them. *)
Definition dev : User.t := User.mk "U1" "Dev" UserRole.developer [].
Definition adm : User.t := User.mk "U2" "Adm" UserRole.admin [].
Definition root : User.t := User.mk "U3" "Root" UserRole.superadmin ["all"].
Definition engine0 : t := new [dev; adm; root].

(** The engine after a developer asked for task ["T"] and the superadmin
    approved it by the emergency path. *)
Definition engineApproved : t :=
  (emergencyApprove "T" "U3" (createWorkflow "T" "U1" engine0).1).1.

(** The rank of a role: the permission matrix lets a role approve the
    stages of its own rank and of the ranks below. *)
Definition roleRank (role : UserRole.t) : nat :=
  match role with
  | UserRole.developer => 0
  | UserRole.admin => 1
  | UserRole.superadmin => 2
  end.

(** A stage without the approval it may carry. *)
Definition blank (stage : ApprovalStage.t) : ApprovalStage.t :=
  ApprovalStage.mk (ApprovalStage.level stage) (ApprovalStage.role stage)
    (ApprovalStage.required stage) (ApprovalStage.timeout stage) None None.

(** What the engine keeps true of the workflow it stores under [key]. *)
Definition wellFormedWorkflow (key : string) (w : ApprovalWorkflow.t) : Prop :=
  ApprovalWorkflow.taskId w = key
  ∧ (∃ role, blank <$> ApprovalWorkflow.stages w = buildApprovalStages role)
  ∧ ApprovalWorkflow.currentStage w < length (ApprovalWorkflow.stages w)
  ∧ ApprovalWorkflow.requiredApprovals w
    = length (filter (λ s, ApprovalStage.required s = true)
                (ApprovalWorkflow.stages w))
  ∧ ApprovalWorkflow.status w ≠ WorkflowStatus.expired.

Definition wellFormed (e : t) : Prop :=
  (∀ key w, workflows e !! key = Some w → wellFormedWorkflow key w)
  ∧ (∀ key user, users e !! key = Some user → User.userId user = key).

End ApprovalEngineVocabulary.

Section TaskQueueVocabulary.
Import TaskQueue.

(** The state [processNext] builds when it admits the object [r]. *)
Definition startTask (now : Z) (r : ref) (q : t) : t :=
  mk (<[r := Task.set_startedAt now
               (Task.set_status TaskStatus.processing (heap q r))]> (heap q))
     (arrays q)
     (List.filter
        (λ r', negb (bool_decide (Task.id (heap q r') = Task.id (heap q r))))
        (queue q))
     (<[Task.id (heap q r) := r]> (processing q))
     (maxConcurrent q)
     (lockResources (heap q r) (resourceLocks q)).


(** An object is tracked when it is in the backlog or in flight. *)
Definition tracked (q : t) (r : ref) : Prop :=
  r ∈ queue q ∨ ∃ taskId, processing q !! taskId = Some r.

(** The admission test in the words of the specification.
    Test (a): every dependency id that is still tracked is completed. *)
Definition dependenciesSatisfied (q : t) (task : Task.t) : Prop :=
  ∀ depId r, depId ∈ dependenciesOf q task → tracked q r →
             Task.id (heap q r) = depId →
             Task.status (heap q r) = TaskStatus.completed.

(** Test (b): no resource of the task is locked by a different task. *)
Definition resourcesFree (q : t) (task : Task.t) : Prop :=
  ∀ resource l, resource ∈ Task.resources task →
                resourceLocks q !! resource = Some l → l = Task.id task.

Definition admissible (q : t) (task : Task.t) : Prop :=
  dependenciesSatisfied q task ∧ resourcesFree q task.

(** What the specification asks of [processNext] below the ceiling: it
    admits the first object of the backlog that passes tests (a) and (b)
    (the object leaves the backlog, is in flight with status [processing]
    and holds the lock of each of its resources, and the objects before it
    stay in the backlog), and it changes nothing when no object of the
    backlog passes both tests. *)
Definition admitsFirstAdmissible (now : Z) (q : t) : Prop :=
  ((∀ r, r ∈ queue q → ¬ admissible q (heap q r))
   ∧ processNext now q = q)
  ∨ (∃ r pre post,
       queue q = pre ++ r :: post
       ∧ admissible q (heap q r)
       ∧ (∀ r', r' ∈ pre → ¬ admissible q (heap q r'))
       ∧ (r ∉ queue (processNext now q))
       ∧ (∀ r', r' ∈ pre → r' ∈ queue (processNext now q))
       ∧ processing (processNext now q) !! Task.id (heap q r) = Some r
       ∧ Task.status (heap (processNext now q) r) = TaskStatus.processing
       ∧ (∀ resource, resource ∈ Task.resources (heap q r) →
            resourceLocks (processNext now q) !! resource
            = Some (Task.id (heap q r)))).

(** Well-formed states for the admission test: in-flight entries stand
    under their ids, tracked objects have distinct ids, and no lock is held
    by the empty id. *)
Definition keyedById (q : t) : Prop :=
  ∀ taskId r, processing q !! taskId = Some r → Task.id (heap q r) = taskId.

Definition uniqueIds (q : t) : Prop :=
  ∀ r1 r2, tracked q r1 → tracked q r2 →
           Task.id (heap q r1) = Task.id (heap q r2) → r1 = r2.

Definition holdersNonEmpty (q : t) : Prop :=
  ∀ resource l, resourceLocks q !! resource = Some l → l ≠ "".

(** The lock table in the words of the specification: a resource is
    locked exactly when it is a resource of an in-flight task, and an
    in-flight task holds the lock of each of its resources. *)
Definition locksMatchProcessing (q : t) : Prop :=
  (∀ resource, is_Some (resourceLocks q !! resource)
               ↔ ∃ taskId r, processing q !! taskId = Some r
                             ∧ resource ∈ Task.resources (heap q r))
  ∧ (∀ taskId r resource,
       processing q !! taskId = Some r →
       resource ∈ Task.resources (heap q r) →
       resourceLocks q !! resource = Some (Task.id (heap q r))).

(** The invariant behind it. In-flight entries stand under their own,
    non-empty id. *)
Definition wellKeyed (q : t) : Prop :=
  ∀ taskId r, processing q !! taskId = Some r →
              Task.id (heap q r) = taskId ∧ taskId ≠ "".

(** No object of the backlog has the empty id or the id of an in-flight
    task. *)
Definition backlogFresh (q : t) : Prop :=
  ∀ r, r ∈ queue q →
       Task.id (heap q r) ≠ ""
       ∧ processing q !! Task.id (heap q r) = None.

(** The lock table is the graph of "resource of the in-flight task". *)
Definition locksExact (q : t) : Prop :=
  ∀ resource l,
    resourceLocks q !! resource = Some l
    ↔ ∃ r, processing q !! l = Some r
           ∧ resource ∈ Task.resources (heap q r).

Definition consistent (q : t) : Prop :=
  wellKeyed q ∧ backlogFresh q ∧ locksExact q.

(** A call is proper when the task it submits has an id that is not empty
    and is not the id of a task in flight. *)
Definition proper (c : Call) (q : t) : Prop :=
  match c with
  | AddTask task _ =>
      Task.id (heap q task) ≠ ""
      ∧ processing q !! Task.id (heap q task) = None
  | _ => True
  end.

Inductive reachableProper (q0 : t) : t → Prop :=
| reachableProper_init : reachableProper q0 q0
| reachableProper_run q c :
    reachableProper q0 q → proper c q → reachableProper q0 (run c q).

(** Sample task objects: ["A"] and ["B"] want ["web"] and ["B"] depends on
    ["A"]; the task with the empty id and ["C"] want ["db"]. Each of them
    has a [dependencies] array of its own; the objects ["D"] were given the
    array of ["B"]. *)
Definition sampleTask (id : string) (priority : TaskPriority.t)
    (dependencies : aref) (resources : list string) (createdAt : Z) : Task.t :=
  Task.mk id TaskType.website_update priority dependencies resources
    TaskStatus.queued createdAt None None.

Definition sampleHeap : ref → Task.t :=
  λ r, match r with
       | 0 => sampleTask "A" TaskPriority.low 0 ["web"] 1
       | 1 => sampleTask "B" TaskPriority.urgent 1 ["web"] 2
       | 2 => sampleTask "" TaskPriority.medium 2 ["db"] 3
       | 3 => sampleTask "C" TaskPriority.medium 3 ["db"] 4
       | _ => sampleTask "D" TaskPriority.low 1 [] 5
       end.

Definition sampleArrays : aref → list string :=
  λ a, match a with
       | 1 => ["A"]
       | _ => []
       end.

(** A queue with ceiling 1 after task ["A"] was submitted: ["A"] is in
    flight. *)
Definition queueA : t := run (AddTask 0 10) (new sampleHeap sampleArrays 1).

(** The same queue after ["B"] was submitted as well. *)
Definition queueAB : t := run (AddTask 1 11) queueA.

(** A queue with ceiling 3 after the task with the empty id was submitted:
    it is in flight and ["db"] is locked by [""]. *)
Definition queueE : t := run (AddTask 2 10) (new sampleHeap sampleArrays 3).

(** A backlog of ["B"] and ["C"] with nothing in flight and ceiling 2. *)
Definition backlogBC : t := mk sampleHeap sampleArrays [1; 3] ∅ 2 ∅.

(** Every in-flight entry stands under the id of its object, which has
    status [processing] and a start date. *)
Definition inFlightMarked (q : t) : Prop :=
  ∀ taskId r, processing q !! taskId = Some r →
              Task.id (heap q r) = taskId
              ∧ Task.status (heap q r) = TaskStatus.processing
              ∧ is_Some (Task.startedAt (heap q r)).



(** The fields of a task the queue only reads; of [dependencies] that is
    the reference, not the array behind it. *)
Definition sameIdentity (a b : Task.t) : Prop :=
  Task.id a = Task.id b
  ∧ Task.type a = Task.type b
  ∧ Task.priority a = Task.priority b
  ∧ Task.dependencies a = Task.dependencies b
  ∧ Task.resources a = Task.resources b
  ∧ Task.createdAt a = Task.createdAt b.

(** The object a call submits, if it is an [addTask]. *)
Definition submitted (c : Call) : option ref :=
  match c with
  | AddTask task _ => Some task
  | _ => None
  end.

(** The state in which [addTask] calls [processNext]: the conflicts are
    appended to the dependencies of the task, and the task is pushed and
    the backlog sorted. *)
Definition enqueue (task : ref) (q : t) : t :=
  let conflicts := checkResourceConflicts q (heap q task) in
  let q :=
    if (0 <? length conflicts)%nat
    then set_arrays (<[Task.dependencies (heap q task) :=
                         dependenciesOf q (heap q task) ++ conflicts]>
                       (arrays q)) q
    else q in
  sortQueue (set_queue (queue q ++ [task]) q).

(** The state in which [completeTask] and [failTask] call [processNext]
    for the in-flight object [r] stored under [taskId]. *)
Definition release (taskId : string) (status : TaskStatus.t) (now : Z)
    (r : ref) (q : t) : t :=
  let task := Task.set_completedAt now (Task.set_status status (heap q r)) in
  set_processing (delete taskId (processing q))
    (set_resourceLocks (unlockResources task (resourceLocks q))
       (set_heap (<[r := task]> (heap q)) q)).

(** The object [processNext] picks, the [nextTask] of the source; none
    when the ceiling is reached. *)
Definition nextTask (q : t) : option ref :=
  if (maxConcurrent q <=? Z.of_nat (size (processing q)))%Z then None
  else List.find (λ r, canProcessTask q (heap q r)) (queue q).

(** The object a call admits, if any: the one picked by the [processNext]
    the call runs, in the state in which it runs it. *)
Definition admittedBy (c : Call) (q : t) : option ref :=
  match c with
  | AddTask task _ => nextTask (enqueue task q)
  | CompleteTask taskId status now _ =>
      match processing q !! taskId with
      | Some r => nextTask (release taskId status now r q)
      | None => None
      end
  | FailTask taskId now _ =>
      match processing q !! taskId with
      | Some r => nextTask (release taskId TaskStatus.failed now r q)
      | None => None
      end
  | ProcessNext _ => nextTask q
  end.

(** The in-flight object a call reports on, with the status it reports. *)
Definition reportedBy (c : Call) (q : t) : option (ref * TaskStatus.t) :=
  match c with
  | CompleteTask taskId status _ _ =>
      match processing q !! taskId with
      | Some r => Some (r, status)
      | None => None
      end
  | FailTask taskId _ _ =>
      match processing q !! taskId with
      | Some r => Some (r, TaskStatus.failed)
      | None => None
      end
  | _ => None
  end.

(** The order of statuses of the specification, one step at a time. *)
Definition forwardStep (s s' : TaskStatus.t) : Prop :=
  s' = s
  ∨ (s = TaskStatus.queued ∧ s' = TaskStatus.processing)
  ∨ (s = TaskStatus.processing
     ∧ (s' = TaskStatus.completed ∨ s' = TaskStatus.failed)).

(** The use of the queue under which that order holds: a task is
    submitted with status [queued], and [completeTask] is given
    [completed] or [failed]. *)
Definition orderly (c : Call) (q : t) : Prop :=
  match c with
  | AddTask task _ => Task.status (heap q task) = TaskStatus.queued
  | CompleteTask _ status _ _ =>
      status = TaskStatus.completed ∨ status = TaskStatus.failed
  | _ => True
  end.

Inductive reachableOrderly (q0 : t) : t → Prop :=
| reachableOrderly_init : reachableOrderly q0 q0
| reachableOrderly_run q c :
    reachableOrderly q0 q → orderly c q → reachableOrderly q0 (run c q).

(** Every object of the backlog has status [queued]. *)
Definition backlogQueued (q : t) : Prop :=
  ∀ r, r ∈ queue q → Task.status (heap q r) = TaskStatus.queued.

End TaskQueueVocabulary.

(** * Properties of the approval engine *)

Section ApprovalEngineProperties.
Import ApprovalEngine.

Local Ltac run_method :=
  unfold createWorkflow, approve, reject, emergencyApprove, store, modify,
    getOrThrow, gets, bind, ret, throw; simpl.

Lemma buildApprovalStages_developer :
  buildApprovalStages UserRole.developer
  = [developerStage; adminStage; superadminStage].
Proof. reflexivity. Qed.

Lemma buildApprovalStages_other role :
  role ≠ UserRole.developer →
  buildApprovalStages role = [adminStage; superadminStage].
Proof. intros Hrole. unfold buildApprovalStages. by case_decide. Qed.

Lemma createWorkflow_registered e taskId requesterId requester :
  users e !! requesterId = Some requester →
  let workflow :=
    ApprovalWorkflow.mk taskId (buildApprovalStages (User.role requester)) 0
      (length (filter (λ s, ApprovalStage.required s = true)
                 (buildApprovalStages (User.role requester))))
      WorkflowStatus.pending in
  createWorkflow taskId requesterId e
  = (mk (<[taskId := workflow]> (workflows e)) (users e), Return workflow).
Proof. intros Hreq. run_method. by rewrite Hreq. Qed.

(** C6: for a registered requester, [createWorkflow] stores and returns a
    workflow with [currentStage] 0 and status [pending] whose stages are
    (required developer, required admin, optional superadmin) and whose
    [requiredApprovals] is 2 when the requester is a developer, and
    (required admin, optional superadmin) with [requiredApprovals] 1 when
    the requester is an admin or a superadmin. *)
Theorem createWorkflow_stage_composition e taskId requesterId requester :
  users e !! requesterId = Some requester →
  let workflow :=
    if decide (User.role requester = UserRole.developer)
    then ApprovalWorkflow.mk taskId
           [developerStage; adminStage; superadminStage] 0 2
           WorkflowStatus.pending
    else ApprovalWorkflow.mk taskId [adminStage; superadminStage] 0 1
           WorkflowStatus.pending in
  createWorkflow taskId requesterId e
  = (mk (<[taskId := workflow]> (workflows e)) (users e), Return workflow).
Proof.
  intros Hreq. simpl. rewrite (createWorkflow_registered _ _ _ _ Hreq).
  case_decide as Hrole.
  - by rewrite Hrole.
  - by rewrite (buildApprovalStages_other _ Hrole).
Qed.

Lemma createWorkflow_stage_composition_witness :
  users engine0 !! "U1" = Some dev
  ∧ (createWorkflow "T" "U1" engine0).2
    = Return (ApprovalWorkflow.mk "T"
                [developerStage; adminStage; superadminStage] 0 2
                WorkflowStatus.pending)
  ∧ (createWorkflow "T" "U2" engine0).2
    = Return (ApprovalWorkflow.mk "T" [adminStage; superadminStage] 0 1
                WorkflowStatus.pending).
Proof.
  split; [reflexivity|]. split.
  - rewrite (createWorkflow_stage_composition engine0 "T" "U1" dev);
      reflexivity.
  - rewrite (createWorkflow_stage_composition engine0 "T" "U2" adm);
      reflexivity.
Defined.

Lemma approve_allowed e taskId userId now workflow user stage :
  workflows e !! taskId = Some workflow →
  users e !! userId = Some user →
  ApprovalWorkflow.stages workflow !! ApprovalWorkflow.currentStage workflow
  = Some stage →
  canApprove user stage = true →
  let recorded :=
    ApprovalWorkflow.set_stages
      (<[ApprovalWorkflow.currentStage workflow :=
           ApprovalStage.approve userId now stage]>
         (ApprovalWorkflow.stages workflow)) workflow in
  approve taskId userId now e
  = (mk (<[taskId := (advanceWorkflow recorded).1]> (workflows e)) (users e),
     Return (advanceWorkflow recorded).2).
Proof.
  intros Hw Hu Hs Hok. run_method. rewrite Hw, Hu. simpl. rewrite Hs. simpl.
  rewrite Hok. simpl. by rewrite insert_insert_eq.
Qed.

(** C5: a workflow created for a developer requester, approved at the
    developer stage and then at the admin stage by registered users who
    may approve those stages, is [approved]: the first call returns
    [false], the second returns [true] and the optional superadmin stage
    was skipped over without an approval. *)
Theorem developer_workflow_approved_after_two_stages
    e taskId requesterId requester userId1 user1 userId2 user2 now1 now2 :
  users e !! requesterId = Some requester →
  User.role requester = UserRole.developer →
  users e !! userId1 = Some user1 →
  users e !! userId2 = Some user2 →
  canApprove user1 developerStage = true →
  canApprove user2 adminStage = true →
  let e1 := (createWorkflow taskId requesterId e).1 in
  let first := approve taskId userId1 now1 e1 in
  let second := approve taskId userId2 now2 first.1 in
  first.2 = Return false
  ∧ getCurrentStage taskId first.1 = Some adminStage
  ∧ second.2 = Return true
  ∧ statusOf second.1 taskId = Some WorkflowStatus.approved
  ∧ (ApprovalWorkflow.stages <$> workflows second.1 !! taskId)
    = Some [ApprovalStage.approve userId1 now1 developerStage;
            ApprovalStage.approve userId2 now2 adminStage;
            superadminStage].
Proof.
  intros Hreq Hrole Hu1 Hu2 Hok1 Hok2.
  rewrite (createWorkflow_registered _ taskId _ _ Hreq), Hrole,
    buildApprovalStages_developer.
  cbn zeta. cbn [fst].
  set (w0 := ApprovalWorkflow.mk taskId _ 0 _ _).
  rewrite (approve_allowed _ taskId userId1 now1 w0 user1 developerStage);
    [| by apply lookup_insert_eq | done | done | done ].
  cbn [fst snd].
  set (w1 := (advanceWorkflow _).1).
  assert (Hw1 : w1 = ApprovalWorkflow.mk taskId
                       [ApprovalStage.approve userId1 now1 developerStage;
                        adminStage; superadminStage] 1 2
                       WorkflowStatus.pending) by reflexivity.
  rewrite (approve_allowed _ taskId userId2 now2 w1 user2 adminStage);
    [| by apply lookup_insert_eq | done | by rewrite Hw1 | done ].
  unfold getCurrentStage, statusOf. cbn [fst snd workflows].
  rewrite !lookup_insert_eq. rewrite Hw1. split_and!; reflexivity.
Qed.

Lemma developer_workflow_approved_witness :
  users engine0 !! "U1" = Some dev
  ∧ canApprove dev developerStage = true
  ∧ canApprove adm adminStage = true
  ∧ statusOf
      (approve "T" "U2" 6
         (approve "T" "U1" 5 (createWorkflow "T" "U1" engine0).1).1).1 "T"
    = Some WorkflowStatus.approved.
Proof.
  split_and!; [reflexivity..|].
  apply (developer_workflow_approved_after_two_stages
           engine0 "T" "U1" dev "U1" dev "U2" adm 5 6); reflexivity.
Defined.

(** C10: for an existing workflow and a registered superadmin,
    [emergencyApprove] returns [true] and writes the workflow's status
    only: its stages (with their approvals), [currentStage],
    [requiredApprovals] and [taskId] are what they were, every other
    workflow is untouched and so is the user registry. *)
Theorem emergencyApprove_changes_status_only e taskId userId workflow user :
  workflows e !! taskId = Some workflow →
  users e !! userId = Some user →
  User.role user = UserRole.superadmin →
  let result := emergencyApprove taskId userId e in
  result.2 = Return true
  ∧ (∃ workflow',
       workflows result.1 !! taskId = Some workflow'
       ∧ ApprovalWorkflow.status workflow' = WorkflowStatus.approved
       ∧ ApprovalWorkflow.stages workflow' = ApprovalWorkflow.stages workflow
       ∧ ApprovalWorkflow.currentStage workflow'
         = ApprovalWorkflow.currentStage workflow
       ∧ ApprovalWorkflow.requiredApprovals workflow'
         = ApprovalWorkflow.requiredApprovals workflow
       ∧ ApprovalWorkflow.taskId workflow' = ApprovalWorkflow.taskId workflow)
  ∧ (∀ other, other ≠ taskId →
       workflows result.1 !! other = workflows e !! other)
  ∧ users result.1 = users e.
Proof.
  intros Hw Hu Hrole. run_method. rewrite Hw. simpl. rewrite Hu.
  rewrite decide_False by (intros Hne; by apply Hne). simpl.
  split_and!; [done | | | done].
  - eexists. rewrite lookup_insert_eq. by split_and!.
  - intros other Hother. by rewrite lookup_insert_ne.
Qed.

Lemma emergencyApprove_changes_status_only_witness :
  let e := (createWorkflow "T" "U1" engine0).1 in
  users e !! "U3" = Some root
  ∧ (emergencyApprove "T" "U3" e).2 = Return true
  ∧ users (emergencyApprove "T" "U3" e).1 = users e.
Proof.
  split; [reflexivity|].
  pose proof (emergencyApprove_changes_status_only
                (createWorkflow "T" "U1" engine0).1 "T" "U3"
                (ApprovalWorkflow.mk "T"
                   [developerStage; adminStage; superadminStage] 0 2
                   WorkflowStatus.pending)
                root eq_refl eq_refl eq_refl) as (Hret & _ & _ & Husers).
  split; [exact Hret | exact Husers].
Defined.

(** C8: a call of [approve] or [reject] that throws leaves the engine as
    it was: workflows (their stages, [currentStage] and status) and the
    user registry. [approve] throws for an unknown workflow, for an unknown
    user and, with [CannotApprove] (the Forbidden error), for a user whose
    role may not approve the current stage; [reject] throws for an unknown
    workflow and for an unknown user. *)
Theorem failed_approve_or_reject_changes_nothing e taskId userId reason now :
  (∀ e' err, approve taskId userId now e = (e', Throw err) → e' = e)
  ∧ (∀ e' err, reject taskId userId reason e = (e', Throw err) → e' = e)
  ∧ (workflows e !! taskId = None →
       approve taskId userId now e = (e, Throw (WorkflowNotFound taskId))
       ∧ reject taskId userId reason e = (e, Throw (WorkflowNotFound taskId)))
  ∧ (is_Some (workflows e !! taskId) → users e !! userId = None →
       approve taskId userId now e = (e, Throw (NotAuthorized userId))
       ∧ reject taskId userId reason e = (e, Throw (UserNotFound userId)))
  ∧ (∀ workflow user stage,
       workflows e !! taskId = Some workflow →
       users e !! userId = Some user →
       ApprovalWorkflow.stages workflow
         !! ApprovalWorkflow.currentStage workflow = Some stage →
       canApprove user stage = false →
       approve taskId userId now e
       = (e, Throw (CannotApprove userId (User.role user)
                      (ApprovalStage.level stage) (ApprovalStage.role stage)))).
Proof.
  split_and!.
  - intros e' err. run_method.
    destruct (workflows e !! taskId) as [workflow|]; simpl; [|congruence].
    destruct (users e !! userId) as [user|]; simpl; [|congruence].
    destruct (ApprovalWorkflow.stages workflow !! _) as [stage|]; simpl;
      [|congruence].
    destruct (canApprove user stage); simpl; congruence.
  - intros e' err. run_method.
    destruct (workflows e !! taskId) as [workflow|]; simpl; [|congruence].
    destruct (users e !! userId) as [user|]; simpl; congruence.
  - intros Hw. run_method. by rewrite Hw.
  - intros [workflow Hw] Hu. run_method. by rewrite Hw, Hu.
  - intros workflow user stage Hw Hu Hs Hno. run_method.
    rewrite Hw, Hu. simpl. rewrite Hs. simpl. by rewrite Hno.
Qed.

Lemma failed_approve_or_reject_witness :
  let e := (createWorkflow "T" "U1" engine0).1 in
  approve "T" "U1" 7 (approve "T" "U1" 5 e).1
  = ((approve "T" "U1" 5 e).1,
     Throw (CannotApprove "U1" UserRole.developer 2 UserRole.admin))
  ∧ ∀ e' err, approve "T" "U1" 7 (approve "T" "U1" 5 e).1 = (e', Throw err) →
              e' = (approve "T" "U1" 5 e).1.
Proof.
  pose proof (failed_approve_or_reject_changes_nothing
                (approve "T" "U1" 5 (createWorkflow "T" "U1" engine0).1).1
                "T" "U1" "" 7) as (Hsame & _ & _ & _ & Hforbidden).
  split; [| exact Hsame].
  apply (Hforbidden
           (ApprovalWorkflow.mk "T"
              [ApprovalStage.approve "U1" 5 developerStage; adminStage;
               superadminStage] 1 2 WorkflowStatus.pending)
           dev adminStage); reflexivity.
Defined.

Lemma advanceWorkflow_status workflow :
  ApprovalWorkflow.status (advanceWorkflow workflow).1
  = ApprovalWorkflow.status workflow
  ∨ ApprovalWorkflow.status (advanceWorkflow workflow).1
    = WorkflowStatus.approved.
Proof.
  funelim (advanceWorkflow workflow).
  - destruct (ApprovalStage.required nextStage); simpl; [by left|].
    match goal with IH : _ ∨ _ |- _ => destruct IH as [Hsame | Happroved] end.
    + left. by rewrite Hsame.
    + by right.
  - by right.
Qed.

(** C3 as stated fails: the workflow of task ["T"] is [approved], and a
    [reject] by the registered developer ["U1"] makes it [rejected]; an
    [emergencyApprove] by the superadmin then makes it [approved] again. *)
Lemma approved_workflow_can_be_rejected :
  statusOf engineApproved "T" = Some WorkflowStatus.approved
  ∧ users engineApproved !! "U1" = Some dev
  ∧ statusOf (reject "T" "U1" "no" engineApproved).1 "T"
    = Some WorkflowStatus.rejected
  ∧ statusOf (emergencyApprove "T" "U3"
                (reject "T" "U1" "no" engineApproved).1).1 "T"
    = Some WorkflowStatus.approved.
Proof. split_and!; reflexivity. Qed.

End ApprovalEngineProperties.

(** * Properties of the task queue *)

Section TaskQueueProperties.
Import TaskQueue.

Lemma find_some_split {A} (p : A → bool) (l : list A) (x : A) :
  List.find p l = Some x →
  ∃ pre post, l = pre ++ x :: post ∧ p x = true ∧ ∀ y, y ∈ pre → p y = false.
Proof.
  induction l as [|a l IH]; simpl; [done|].
  destruct (p a) eqn:Hpa.
  - intros [= ->]. exists [], l. split_and!; [done..|].
    intros y Hy. by apply not_elem_of_nil in Hy.
  - intros Hfind. destruct (IH Hfind) as (pre & post & -> & Hx & Hpre).
    exists (a :: pre), post. split_and!; [done..|].
    intros y [->|Hy]%elem_of_cons; [done | by apply Hpre].
Qed.

Lemma find_none_all {A} (p : A → bool) (l : list A) :
  List.find p l = None → ∀ y, y ∈ l → p y = false.
Proof.
  induction l as [|a l IH]; simpl.
  - intros _ y Hy. by apply not_elem_of_nil in Hy.
  - destruct (p a) eqn:Hpa; [done|].
    intros Hfind y [->|Hy]%elem_of_cons; [done | by apply IH].
Qed.

(** [processNext] either leaves the queue as it is, or it admits the first
    object of the backlog that [canProcessTask] accepts. *)
Lemma processNext_cases now q :
  processNext now q = q
  ∨ ∃ r pre post,
      (Z.of_nat (size (processing q)) < maxConcurrent q)%Z
      ∧ queue q = pre ++ r :: post
      ∧ canProcessTask q (heap q r) = true
      ∧ (∀ r', r' ∈ pre → canProcessTask q (heap q r') = false)
      ∧ processNext now q = startTask now r q.
Proof.
  unfold processNext.
  destruct (Z.leb_spec (maxConcurrent q) (Z.of_nat (size (processing q))))
    as [Hfull | Hroom]; [by left|].
  destruct (List.find _ (queue q)) as [r|] eqn:Hfind; [|by left].
  right. destruct (find_some_split _ _ _ Hfind) as (pre & post & Hq & Hr & Hpre).
  exists r, pre, post. by split_and!.
Qed.

Lemma processNext_full now q :
  (maxConcurrent q ≤ Z.of_nat (size (processing q)))%Z →
  processNext now q = q.
Proof.
  intros Hfull. unfold processNext.
  by destruct (Z.leb_spec (maxConcurrent q) (Z.of_nat (size (processing q))));
    [|lia].
Qed.

Lemma processNext_maxConcurrent now q :
  maxConcurrent (processNext now q) = maxConcurrent q.
Proof.
  destruct (processNext_cases now q) as [-> | (r & ? & ? & _ & _ & _ & _ & ->)];
    done.
Qed.

Lemma processNext_bounded now q (bound : Z) :
  maxConcurrent q = bound →
  (Z.of_nat (size (processing q)) ≤ bound)%Z →
  (Z.of_nat (size (processing (processNext now q))) ≤ bound)%Z.
Proof.
  intros Hmax Hle.
  destruct (processNext_cases now q)
    as [-> | (r & ? & ? & Hroom & _ & _ & _ & ->)]; [done|].
  simpl. rewrite map_size_insert.
  destruct (processing q !! Task.id (heap q r)); unfold Datatypes.id; lia.
Qed.

Lemma run_maxConcurrent c q : maxConcurrent (run c q) = maxConcurrent q.
Proof.
  destruct c as [task now | taskId status now now' | taskId now now' | now];
    simpl.
  - unfold addTask. rewrite processNext_maxConcurrent. simpl.
    by destruct (0 <? _)%nat.
  - unfold completeTask. destruct (processing q !! taskId); [|done].
    by rewrite processNext_maxConcurrent.
  - unfold failTask. destruct (processing q !! taskId); [|done].
    by rewrite processNext_maxConcurrent.
  - apply processNext_maxConcurrent.
Qed.

Lemma run_bounded c q (bound : Z) :
  maxConcurrent q = bound →
  (Z.of_nat (size (processing q)) ≤ bound)%Z →
  (Z.of_nat (size (processing (run c q))) ≤ bound)%Z.
Proof.
  intros Hmax Hle.
  destruct c as [task now | taskId status now now' | taskId now now' | now];
    simpl.
  - unfold addTask. apply processNext_bounded; simpl.
    + by destruct (0 <? _)%nat.
    + by destruct (0 <? _)%nat.
  - unfold completeTask. destruct (processing q !! taskId) eqn:Hin; [|done].
    apply processNext_bounded; simpl; [done|].
    rewrite map_size_delete, Hin. lia.
  - unfold failTask. destruct (processing q !! taskId) eqn:Hin; [|done].
    apply processNext_bounded; simpl; [done|].
    rewrite map_size_delete, Hin. lia.
  - by apply processNext_bounded.
Qed.

(** C7, as the code has it: when the configured ceiling is not negative,
    every state reached from a new queue has at most that many in-flight
    tasks, and [processNext] changes nothing in a state whose in-flight
    count is at the ceiling. *)
Theorem in_flight_within_ceiling h a maxConcurrent0 q :
  (0 ≤ maxConcurrent0)%Z →
  reachable (new h a maxConcurrent0) q →
  maxConcurrent q = maxConcurrent0
  ∧ (Z.of_nat (size (processing q)) ≤ maxConcurrent0)%Z
  ∧ ∀ now, Z.of_nat (size (processing q)) = maxConcurrent0 →
           processNext now q = q.
Proof.
  intros Hpos Hreach.
  assert (maxConcurrent q = maxConcurrent0
          ∧ (Z.of_nat (size (processing q)) ≤ maxConcurrent0)%Z) as [Hmax Hle].
  { induction Hreach as [|q c _ [IHmax IHle]].
    - split; [done|]. simpl. by rewrite map_size_empty.
    - split; [by rewrite run_maxConcurrent | by apply run_bounded]. }
  split_and!; [done..|].
  intros now Hfull. apply processNext_full. lia.
Qed.

Lemma in_flight_within_ceiling_witness :
  let q := run (AddTask 3 11) (run (AddTask 0 10) (new sampleHeap sampleArrays 1)) in
  (0 ≤ 1)%Z
  ∧ reachable (new sampleHeap sampleArrays 1) q
  ∧ (Z.of_nat (size (processing q)) ≤ 1)%Z
  ∧ processNext 12 q = q.
Proof.
  assert (Hreach : reachable (new sampleHeap sampleArrays 1)
            (run (AddTask 3 11) (run (AddTask 0 10) (new sampleHeap sampleArrays 1))))
    by (do 2 apply reachable_run; apply reachable_init).
  destruct (in_flight_within_ceiling sampleHeap sampleArrays 1 _ ltac:(lia) Hreach)
    as (_ & Hle & Hfull).
  split_and!; [lia | exact Hreach | exact Hle |].
  apply Hfull. reflexivity.
Defined.

(** C7 as stated fails for a negative ceiling: a queue built with ceiling
    [-1] has no in-flight task, which is more than its ceiling. *)
Lemma negative_ceiling_is_exceeded :
  reachable (new sampleHeap sampleArrays (-1)) (new sampleHeap sampleArrays (-1))
  ∧ ¬ (Z.of_nat (size (processing (new sampleHeap sampleArrays (-1))))
       ≤ maxConcurrent (new sampleHeap sampleArrays (-1)))%Z.
Proof.
  split; [apply reachable_init|]. simpl. rewrite map_size_empty. lia.
Qed.


(** ** Sorting the backlog *)

Section Sort.
Context {A : Type} (cmp : A → A → Z) (R : A → A → Prop).
Hypothesis cmp_before : ∀ x y, (cmp x y < 0)%Z → R x y.
Hypothesis cmp_not_before : ∀ x y, ¬ (cmp x y < 0)%Z → R y x.
Hypothesis R_trans : ∀ x y z, R x y → R y z → R x z.

Lemma sort_insert_perm x l : sort_insert cmp x l ≡ₚ x :: l.
Proof.
  induction l as [|y l IH]; simpl; [done|].
  destruct (cmp x y <? 0)%Z; [done|].
  rewrite IH. apply Permutation_swap.
Qed.


Lemma sort_from_perm acc l :
  foldl (λ acc x, sort_insert cmp x acc) acc l ≡ₚ acc ++ l.
Proof.
  revert acc. induction l as [|x l IH]; intros acc; simpl.
  - by rewrite app_nil_r.
  - rewrite IH, sort_insert_perm. simpl. apply Permutation_middle.
Qed.


Lemma sort_perm l : sort cmp l ≡ₚ l.
Proof. unfold sort. by rewrite sort_from_perm. Qed.

End Sort.





(** ** Resource conflicts *)




Lemma lockingConflict_Some q task resource l :
  lockingConflict q task resource = Some l
  ↔ resourceLocks q !! resource = Some l ∧ l ≠ "" ∧ l ≠ Task.id task.
Proof.
  unfold lockingConflict, truthy.
  destruct (resourceLocks q !! resource) as [l'|]; simpl; [|naive_solver].
  repeat case_bool_decide; simpl; naive_solver.
Qed.







(** ** Locks held by the empty id *)

(** C1 at the failing input: with the task of id [""] in flight on
    ["db"], [addTask] of ["C"] (resource ["db"]) runs [processNext] on the
    backlog [["C"]] below the ceiling. ["db"] is locked by a different
    task, so ["C"] fails test (b), and [processNext] admits it all the
    same: the truthiness test on the locking id takes [""] for no lock. *)
Lemma processNext_admits_task_locked_by_empty_id :
  let q := set_queue [3] queueE in
  addTask 3 11 queueE = processNext 11 q
  ∧ (Z.of_nat (size (processing q)) < maxConcurrent q)%Z
  ∧ processing q !! "" = Some 2
  ∧ resourceLocks q !! "db" = Some ""
  ∧ Task.id (heap q 3) = "C"
  ∧ ¬ admissible q (heap q 3)
  ∧ canProcessTask q (heap q 3) = true
  ∧ processing (processNext 11 q) !! "C" = Some 3
  ∧ queue (processNext 11 q) = []
  ∧ resourceLocks (processNext 11 q) !! "db" = Some "C".
Proof.
  split_and!; try reflexivity.
  intros [_ Hfree].
  specialize (Hfree "db" "" ltac:(apply list_elem_of_here) eq_refl).
  discriminate Hfree.
Qed.

(** C2 at the failing input: after [""] (resource ["db"]) and ["C"]
    (resource ["db"]) were submitted both are in flight and ["db"] is locked
    by ["C"] alone; once ["C"] completes, [""] is still in flight and its
    resource ["db"] is not locked at all. *)
Lemma lock_of_empty_id_is_lost :
  let q := run (AddTask 3 11) queueE in
  let q' := run (CompleteTask "C" TaskStatus.completed 12 13) q in
  reachable (new sampleHeap sampleArrays 3) q'
  ∧ processing q !! "" = Some 2
  ∧ processing q !! "C" = Some 3
  ∧ resourceLocks q !! "db" = Some "C"
  ∧ processing q' !! "" = Some 2
  ∧ Task.resources (heap q' 2) = ["db"]
  ∧ resourceLocks q' !! "db" = None
  ∧ ¬ locksMatchProcessing q
  ∧ ¬ locksMatchProcessing q'.
Proof.
  split_and!; try reflexivity.
  - do 3 apply reachable_run. apply reachable_init.
  - intros [_ Hholds].
    specialize (Hholds "" 2 "db" eq_refl ltac:(apply list_elem_of_here)).
    discriminate Hholds.
  - intros [_ Hholds].
    specialize (Hholds "" 2 "db" eq_refl ltac:(apply list_elem_of_here)).
    discriminate Hholds.
Qed.

(** ** The lock table when ids are not empty and not reused in flight *)

Lemma lockResources_lookup task locks resource :
  lockResources task locks !! resource
  = if decide (resource ∈ Task.resources task) then Some (Task.id task)
    else locks !! resource.
Proof.
  unfold lockResources. revert locks.
  induction (Task.resources task) as [|x l IH]; intros locks.
  - done.
  - cbn [foldl]. rewrite IH.
    destruct (decide (resource = x)) as [-> | Hne].
    + rewrite lookup_insert_eq.
      rewrite (decide_True (P := x ∈ x :: l)) by apply list_elem_of_here.
      by case_decide.
    + rewrite lookup_insert_ne by done.
      repeat case_decide; try done; rewrite elem_of_cons in *; naive_solver.
Qed.

Lemma unlockResources_lookup task locks resource :
  unlockResources task locks !! resource
  = if decide (resource ∈ Task.resources task
               ∧ locks !! resource = Some (Task.id task))
    then None else locks !! resource.
Proof.
  unfold unlockResources. revert locks.
  induction (Task.resources task) as [|x l IH]; intros locks.
  - done.
  - cbn [foldl]. rewrite IH. clear IH.
    case_bool_decide as Hx.
    + destruct (decide (resource = x)) as [-> | Hne].
      * rewrite lookup_delete_eq.
        rewrite (decide_True (P := x ∈ x :: l ∧ _));
          [| split; [apply list_elem_of_here | done]].
        by case_decide.
      * rewrite lookup_delete_ne by done.
        repeat case_decide; try done; rewrite elem_of_cons in *; naive_solver.
    + repeat case_decide; try done; rewrite elem_of_cons in *; naive_solver.
Qed.

Lemma canProcessTask_resources q task resource l :
  canProcessTask q task = true →
  resource ∈ Task.resources task →
  resourceLocks q !! resource = Some l →
  l = "" ∨ l = Task.id task.
Proof.
  unfold canProcessTask. destruct (0 <? _)%nat; [done|].
  rewrite forallb_forall. intros Hall Hin Hlock.
  specialize (Hall resource (proj1 (list_elem_of_In _ _) Hin)).
  apply negb_true_iff, bool_decide_eq_false in Hall.
  destruct (decide (l = "")) as [|Hne]; [by left|].
  destruct (decide (l = Task.id task)) as [|Hid]; [by right|].
  exfalso. apply Hall. exists l. apply lockingConflict_Some. done.
Qed.


Lemma startTask_consistent now r q :
  consistent q → r ∈ queue q → canProcessTask q (heap q r) = true →
  consistent (startTask now r q).
Proof.
  intros (Hkeyed & Hfresh & Hlocks) Hr Hcan.
  destruct (Hfresh r Hr) as [Hid Hidle].
  assert (Hheap : ∀ x, Task.id (heap (startTask now r q) x) = Task.id (heap q x)
                       ∧ Task.resources (heap (startTask now r q) x)
                         = Task.resources (heap q x)).
  { intros x. simpl. destruct (decide (x = r)) as [-> | Hne].
    - by rewrite fn_lookup_insert.
    - by rewrite fn_lookup_insert_ne. }
  split_and!.
  - intros taskId r0 Hin. rewrite (proj1 (Hheap r0)). simpl in Hin.
    destruct (decide (taskId = Task.id (heap q r))) as [-> | Hne].
    + rewrite lookup_insert_eq in Hin. by injection Hin as <-.
    + rewrite lookup_insert_ne in Hin by done. by apply Hkeyed.
  - intros r' Hr'. rewrite (proj1 (Hheap r')). simpl in Hr'.
    apply list_elem_of_In, filter_In in Hr' as [Hin Hne].
    apply list_elem_of_In in Hin.
    apply negb_true_iff, bool_decide_eq_false in Hne.
    destruct (Hfresh r' Hin) as [Hid' Hidle']. split; [done|].
    simpl. by rewrite lookup_insert_ne.
  - intros resource l. simpl resourceLocks. rewrite lockResources_lookup.
    setoid_rewrite (λ x, proj2 (Hheap x)). simpl processing.
    case_decide as Hres.
    + split.
      * intros [= <-]. exists r. by rewrite lookup_insert_eq.
      * intros (r0 & Hr0 & Hin0).
        destruct (decide (l = Task.id (heap q r))) as [-> | Hne]; [done|].
        rewrite lookup_insert_ne in Hr0 by done.
        assert (Hlock : resourceLocks q !! resource = Some l)
          by (apply Hlocks; by exists r0).
        destruct (canProcessTask_resources _ _ _ _ Hcan Hres Hlock)
          as [-> | ->]; [|done].
        by destruct (Hkeyed _ _ Hr0).
    + rewrite (Hlocks resource l). split.
      * intros (r0 & Hr0 & Hin0). exists r0. split; [|done].
        rewrite lookup_insert_ne; [done|]. intros <-. by rewrite Hidle in Hr0.
      * intros (r0 & Hr0 & Hin0).
        destruct (decide (l = Task.id (heap q r))) as [-> | Hne].
        -- rewrite lookup_insert_eq in Hr0. by injection Hr0 as <-.
        -- rewrite lookup_insert_ne in Hr0 by done. by exists r0.
Qed.

Lemma processNext_consistent now q :
  consistent q → consistent (processNext now q).
Proof.
  intros Hq.
  destruct (processNext_cases now q)
    as [-> | (r & pre & post & _ & Hqueue & Hcan & _ & ->)]; [done|].
  apply startTask_consistent; [done| |done].
  rewrite Hqueue. apply elem_of_app. right. apply list_elem_of_here.
Qed.

Lemma consistent_transfer q q' :
  (∀ x, Task.id (heap q' x) = Task.id (heap q x)
        ∧ Task.resources (heap q' x) = Task.resources (heap q x)) →
  processing q' = processing q →
  resourceLocks q' = resourceLocks q →
  (∀ r, r ∈ queue q' →
        r ∈ queue q
        ∨ (Task.id (heap q r) ≠ ""
           ∧ processing q !! Task.id (heap q r) = None)) →
  consistent q → consistent q'.
Proof.
  intros Hheap Hprocessing Hlocks Hqueue (Hkeyed & Hfresh & Hexact).
  split_and!.
  - intros taskId r Hr. rewrite (proj1 (Hheap r)). apply Hkeyed.
    by rewrite <- Hprocessing.
  - intros r Hr. rewrite (proj1 (Hheap r)), Hprocessing.
    destruct (Hqueue r Hr) as [Hold | Hnew]; [by apply Hfresh | done].
  - intros resource l. rewrite Hlocks, Hprocessing.
    setoid_rewrite (λ x, proj2 (Hheap x)). apply Hexact.
Qed.

Lemma addTask_consistent task now q :
  proper (AddTask task now) q → consistent q →
  consistent (addTask task now q).
Proof.
  intros [Hid Hidle] Hq. unfold addTask.
  apply processNext_consistent.
  set (conflicts := checkResourceConflicts q (heap q task)).
  apply (consistent_transfer q); [| | | |done].
  - intros x. simpl. by destruct (0 <? _)%nat.
  - simpl. by destruct (0 <? _)%nat.
  - simpl. by destruct (0 <? _)%nat.
  - intros r. simpl. rewrite sort_perm.
    assert (Hqueue : ∀ q0 : t,
              queue q0 = queue q →
              r ∈ queue q0 ++ [task] →
              r ∈ queue q
              ∨ Task.id (heap q r) ≠ ""
                ∧ processing q !! Task.id (heap q r) = None).
    { intros q0 ->. rewrite elem_of_app, list_elem_of_singleton.
      intros [Hold | ->]; [by left | by right]. }
    destruct (0 <? _)%nat; by apply Hqueue.
Qed.

(** The state in which [completeTask] and [failTask] call [processNext]. *)
Lemma release_consistent taskId status now r q :
  processing q !! taskId = Some r → consistent q →
  let task := Task.set_completedAt now (Task.set_status status (heap q r)) in
  consistent
    (set_processing (delete taskId (processing q))
       (set_resourceLocks (unlockResources task (resourceLocks q))
          (set_heap (<[r := task]> (heap q)) q))).
Proof.
  intros Hr (Hkeyed & Hfresh & Hexact) task.
  destruct (Hkeyed _ _ Hr) as [Hid Hne].
  assert (Hheap : ∀ x, Task.id ((<[r := task]> (heap q)) x) = Task.id (heap q x)
                       ∧ Task.resources ((<[r := task]> (heap q)) x)
                         = Task.resources (heap q x)).
  { intros x. destruct (decide (x = r)) as [-> | Hx].
    - by rewrite fn_lookup_insert.
    - by rewrite fn_lookup_insert_ne. }
  split_and!.
  - intros taskId' r' Hr'. simpl in *. rewrite (proj1 (Hheap r')).
    apply lookup_delete_Some in Hr' as [_ Hr']. by apply Hkeyed.
  - intros r' Hr'. simpl in *. rewrite (proj1 (Hheap r')).
    destruct (Hfresh r' Hr') as [Hid' Hidle]. split; [done|].
    apply lookup_delete_None. by right.
  - intros resource l. simpl. rewrite unlockResources_lookup.
    setoid_rewrite (λ x, proj2 (Hheap x)).
    change (Task.id task) with (Task.id (heap q r)).
    change (Task.resources task) with (Task.resources (heap q r)).
    rewrite Hid. case_decide as Hmine.
    + split; [done|]. intros (r' & Hr' & Hin').
      apply lookup_delete_Some in Hr' as [Hother Hr'].
      destruct Hmine as [_ Hlock].
      assert (Hlock' : resourceLocks q !! resource = Some l)
        by (apply Hexact; by exists r').
      congruence.
    + rewrite (Hexact resource l). split.
      * intros (r' & Hr' & Hin'). exists r'. split; [|done].
        apply lookup_delete_Some. split; [|done]. intros <-.
        apply Hmine. assert (r' = r) as -> by congruence.
        split; [done|]. apply Hexact. by exists r.
      * intros (r' & Hr' & Hin'). exists r'.
        by apply lookup_delete_Some in Hr' as [_ Hr'].
Qed.

Lemma run_consistent c q :
  proper c q → consistent q → consistent (run c q).
Proof.
  intros Hproper Hq.
  destruct c as [task now | taskId status now now' | taskId now now' | now];
    simpl.
  - by apply addTask_consistent.
  - unfold completeTask. destruct (processing q !! taskId) as [r|] eqn:Hr;
      [|done].
    apply processNext_consistent.
    exact (release_consistent taskId status now r q Hr Hq).
  - unfold failTask. destruct (processing q !! taskId) as [r|] eqn:Hr;
      [|done].
    apply processNext_consistent.
    exact (release_consistent taskId TaskStatus.failed now r q Hr Hq).
  - by apply processNext_consistent.
Qed.



(** ** The admission test when ids are unique and not empty *)

Lemma filter_length_0 {A} (p : A → bool) (l : list A) :
  (0 <? length (List.filter p l))%nat = false ↔ ∀ x, x ∈ l → p x = false.
Proof.
  rewrite Nat.ltb_ge. induction l as [|a l IH]; simpl.
  - split; [|lia]. intros _ x Hx. by apply not_elem_of_nil in Hx.
  - destruct (p a) eqn:Hpa; simpl.
    + split; [lia|]. intros Hall.
      specialize (Hall a (list_elem_of_here _ _)). congruence.
    + rewrite IH. split.
      * intros Hall x [-> | Hx]%elem_of_cons; [done | by apply Hall].
      * intros Hall x Hx. apply Hall, elem_of_cons. by right.
Qed.

Lemma lookupTask_Some q depId r :
  keyedById q → lookupTask q depId = Some r →
  tracked q r ∧ Task.id (heap q r) = depId.
Proof.
  intros Hkeyed. unfold lookupTask.
  destruct (processing q !! depId) as [r0|] eqn:Hin.
  - intros [= <-]. split; [right; by exists depId | by apply Hkeyed].
  - intros Hfind. destruct (find_some_split _ _ _ Hfind)
      as (pre & post & Hq & Hid & _).
    apply bool_decide_eq_true in Hid. split; [|done].
    left. rewrite Hq. apply elem_of_app. right. apply list_elem_of_here.
Qed.

Lemma lookupTask_None q depId r :
  keyedById q → lookupTask q depId = None →
  tracked q r → Task.id (heap q r) ≠ depId.
Proof.
  intros Hkeyed. unfold lookupTask.
  destruct (processing q !! depId) as [r0|] eqn:Hin; [done|].
  intros Hfind [Hqueue | [taskId Hflight]] Hid.
  - pose proof (find_none_all _ _ Hfind r Hqueue) as Hr.
    apply bool_decide_eq_false in Hr. done.
  - rewrite (Hkeyed _ _ Hflight) in Hid. congruence.
Qed.

Lemma canProcessTask_admissible q task :
  keyedById q → uniqueIds q → holdersNonEmpty q →
  canProcessTask q task = true ↔ admissible q task.
Proof.
  intros Hkeyed Hunique Hholders. unfold canProcessTask, admissible. split.
  - destruct (0 <? _)%nat eqn:Hdeps; [done|]. intros Hres.
    assert (Hcan : canProcessTask q task = true)
      by (unfold canProcessTask; by rewrite Hdeps).
    unfold incompleteDeps in Hdeps. rewrite filter_length_0 in Hdeps. split.
    + intros depId r Hdep Htracked Hid.
      specialize (Hdeps depId Hdep). simpl in Hdeps.
      destruct (lookupTask q depId) as [r0|] eqn:Hlookup.
      * destruct (lookupTask_Some _ _ _ Hkeyed Hlookup) as [Htracked0 Hid0].
        assert (r = r0) as -> by (apply Hunique; congruence).
        by apply negb_false_iff, bool_decide_eq_true in Hdeps.
      * by destruct (lookupTask_None _ _ _ Hkeyed Hlookup Htracked).
    + intros resource l Hin Hlock.
      destruct (canProcessTask_resources _ _ _ _ Hcan Hin Hlock) as [-> | ->];
        [by destruct (Hholders _ _ Hlock) | done].
  - intros [Hdeps Hfree]. unfold incompleteDeps.
    rewrite (proj2 (filter_length_0 _ _)).
    + apply forallb_forall. intros resource Hin%list_elem_of_In.
      apply negb_true_iff, bool_decide_eq_false. intros [l Hl].
      apply lockingConflict_Some in Hl as (Hlock & _ & Hother).
      by specialize (Hfree _ _ Hin Hlock).
    + intros depId Hdep.
      destruct (lookupTask q depId) as [r0|] eqn:Hlookup; [|done].
      destruct (lookupTask_Some _ _ _ Hkeyed Hlookup) as [Htracked0 Hid0].
      apply negb_false_iff, bool_decide_eq_true. by eapply Hdeps.
Qed.

(** X1: the admission rule for unique, non-empty ids. In a state with the
    in-flight count below the ceiling, where in-flight entries stand under
    their ids, tracked objects have distinct ids and no lock is held by
    the empty id, [processNext] admits the first object of the backlog
    that passes tests (a) and (b), and skipped objects stay in the
    backlog. *)
Theorem processNext_admits_first_admissible now q :
  keyedById q → uniqueIds q → holdersNonEmpty q →
  (Z.of_nat (size (processing q)) < maxConcurrent q)%Z →
  admitsFirstAdmissible now q.
Proof.
  intros Hkeyed Hunique Hholders Hroom.
  unfold admitsFirstAdmissible, processNext.
  destruct (Z.leb_spec (maxConcurrent q) (Z.of_nat (size (processing q))))
    as [Hfull | _]; [lia|].
  destruct (List.find _ (queue q)) as [r|] eqn:Hfind.
  - right.
    destruct (find_some_split _ _ _ Hfind) as (pre & post & Hq & Hr & Hpre).
    exists r, pre, post.
    assert (Hadm : ∀ x, canProcessTask q (heap q x) = true
                        ↔ admissible q (heap q x))
      by (intros x; by apply canProcessTask_admissible).
    split_and!; try done.
    + by apply Hadm.
    + intros r' Hr' Hadmissible. apply Hadm in Hadmissible.
      rewrite (Hpre r' Hr') in Hadmissible. done.
    + simpl. intros Hin%list_elem_of_In%filter_In.
      destruct Hin as [_ Hne].
      apply negb_true_iff, bool_decide_eq_false in Hne. done.
    + intros r' Hr'. simpl. apply list_elem_of_In, filter_In. split.
      * apply list_elem_of_In. rewrite Hq. apply elem_of_app. by left.
      * apply negb_true_iff, bool_decide_eq_false. intros Hid.
        assert (r' = r) as ->.
        { apply Hunique; [| |done]; left; rewrite Hq, elem_of_app.
          - by left.
          - right. apply list_elem_of_here. }
        rewrite (Hpre r Hr') in Hr. done.
    + simpl. by rewrite lookup_insert_eq.
    + simpl. by rewrite fn_lookup_insert.
    + intros resource Hin. simpl. rewrite lockResources_lookup.
      by rewrite decide_True.
  - left. split; [|done]. intros r Hr Hadmissible.
    apply canProcessTask_admissible in Hadmissible; [|done..].
    rewrite (find_none_all _ _ Hfind r Hr) in Hadmissible. done.
Qed.

Lemma processNext_admits_first_admissible_witness :
  keyedById backlogBC ∧ uniqueIds backlogBC ∧ holdersNonEmpty backlogBC
  ∧ admitsFirstAdmissible 12 backlogBC.
Proof.
  assert (Hkeyed : keyedById backlogBC) by (intros taskId r Hr; done).
  assert (Hholders : holdersNonEmpty backlogBC) by (intros resource l Hl; done).
  assert (Hunique : uniqueIds backlogBC).
  { assert (Hin : ∀ r, tracked backlogBC r → r = 1 ∨ r = 3).
    { intros r [Hr | [taskId Hr]]; [|done]. simpl in Hr.
      apply elem_of_cons in Hr as [-> | Hr]; [by left|].
      apply list_elem_of_singleton in Hr. by right. }
    intros r1 r2 H1 H2 Hid.
    destruct (Hin r1 H1) as [-> | ->], (Hin r2 H2) as [-> | ->];
      done. }
  split_and!; [done..|].
  apply (processNext_admits_first_admissible 12 backlogBC Hkeyed Hunique
           Hholders).
  simpl. rewrite map_size_empty. lia.
Defined.

End TaskQueueProperties.

(** * Further properties of the task queue *)

Section TaskQueueFurther.
Import TaskQueue.

(** ** Position in the backlog *)

Lemma findIndex_lower {A} (p : A → bool) (l : list A) :
  (-1 ≤ findIndex p l)%Z.
Proof.
  induction l as [|a l IH]; simpl; [lia|].
  destruct (p a); [lia|].
  destruct (Z.eqb_spec (findIndex p l) (-1)); lia.
Qed.

Lemma findIndex_none {A} (p : A → bool) (l : list A) :
  findIndex p l = (-1)%Z ↔ ∀ x, x ∈ l → p x = false.
Proof.
  induction l as [|a l IH]; simpl.
  - split; [|done]. intros _ x Hx. by apply not_elem_of_nil in Hx.
  - destruct (p a) eqn:Hpa.
    + split; [done|]. intros Hall.
      specialize (Hall a (list_elem_of_here _ _)). congruence.
    + pose proof (findIndex_lower p l) as Hlower.
      destruct (Z.eqb_spec (findIndex p l) (-1)) as [Hnone | Hsome].
      * split; [|done]. intros _ x [-> | Hx]%elem_of_cons; [done|].
        by apply IH.
      * split; [lia|].
        intros Hall. exfalso. apply Hsome, IH.
        intros x Hx. apply Hall, elem_of_cons. by right.
Qed.

Lemma findIndex_first {A} (p : A → bool) (pre post : list A) (x : A) :
  p x = true → (∀ y, y ∈ pre → p y = false) →
  findIndex p (pre ++ x :: post) = Z.of_nat (length pre).
Proof.
  intros Hx. induction pre as [|a pre IH]; intros Hpre; simpl.
  - by rewrite Hx.
  - rewrite (Hpre a (list_elem_of_here _ _)).
    rewrite IH by (intros y Hy; apply Hpre, elem_of_cons; by right).
    destruct (Z.eqb_spec (Z.of_nat (length pre)) (-1)); lia.
Qed.

(** X3: [getTaskPosition] is [-1] exactly when no object of the backlog
    has the id, and otherwise one more than the number of backlog objects
    before the first one with the id; [getEstimatedWaitTime] is [0] in the
    first case and 900000 ms (15 minutes) times the position in the
    second. *)
Theorem getTaskPosition_first_match taskId q :
  (getTaskPosition taskId q = (-1)%Z
   ↔ ∀ r, r ∈ queue q → Task.id (heap q r) ≠ taskId)
  ∧ (getTaskPosition taskId q = (-1)%Z → getEstimatedWaitTime taskId q = 0%Z)
  ∧ (∀ pre r post,
       queue q = pre ++ r :: post →
       Task.id (heap q r) = taskId →
       (∀ r', r' ∈ pre → Task.id (heap q r') ≠ taskId) →
       getTaskPosition taskId q = (Z.of_nat (length pre) + 1)%Z
       ∧ getEstimatedWaitTime taskId q
         = ((Z.of_nat (length pre) + 1) * 900000)%Z).
Proof.
  assert (Hpos : ∀ pre r post,
            queue q = pre ++ r :: post →
            Task.id (heap q r) = taskId →
            (∀ r', r' ∈ pre → Task.id (heap q r') ≠ taskId) →
            getTaskPosition taskId q = (Z.of_nat (length pre) + 1)%Z).
  { intros pre r post Hq Hr Hpre. unfold getTaskPosition. rewrite Hq.
    rewrite findIndex_first.
    - destruct (Z.eqb_spec (Z.of_nat (length pre)) (-1)); [lia | done].
    - by apply bool_decide_eq_true.
    - intros r' Hr'. apply bool_decide_eq_false. by apply Hpre. }
  split_and!.
  - unfold getTaskPosition.
    destruct (Z.eqb_spec
                (findIndex (λ r, bool_decide (Task.id (heap q r) = taskId))
                   (queue q)) (-1)) as [Hnone | Hsome].
    + split; [|done]. intros _ r Hr.
      pose proof (proj1 (findIndex_none _ _) Hnone r Hr) as Hr'.
      by apply bool_decide_eq_false in Hr'.
    + split.
      * intros Hidx. exfalso.
        pose proof (findIndex_lower
                      (λ r, bool_decide (Task.id (heap q r) = taskId))
                      (queue q)).
        lia.
      * intros Hall. exfalso. apply Hsome, findIndex_none.
        intros r Hr. apply bool_decide_eq_false. by apply Hall.
  - intros Hnone. unfold getEstimatedWaitTime. by rewrite Hnone.
  - intros pre r post Hq Hr Hpre. split; [by eapply Hpos|].
    unfold getEstimatedWaitTime. rewrite (Hpos pre r post Hq Hr Hpre).
    destruct (Z.eqb_spec (Z.of_nat (length pre) + 1) (-1)); lia.
Qed.

Lemma getTaskPosition_first_match_witness :
  getTaskPosition "C" backlogBC = 2%Z
  ∧ getEstimatedWaitTime "C" backlogBC = 1800000%Z
  ∧ getEstimatedWaitTime "A" backlogBC = 0%Z.
Proof.
  destruct (getTaskPosition_first_match "C" backlogBC) as (_ & _ & Hpos).
  destruct (Hpos [1] 3 [] eq_refl eq_refl) as [Hposition Hwait].
  { intros r' Hr'. apply list_elem_of_singleton in Hr' as ->. done. }
  split_and!; [exact Hposition | exact Hwait |].
  apply (getTaskPosition_first_match "A" backlogBC). reflexivity.
Defined.

(** ** The steps of a call *)

Lemma addTask_enqueue task now q :
  addTask task now q = processNext now (enqueue task q).
Proof. reflexivity. Qed.

Lemma completeTask_release taskId status now now' q r :
  processing q !! taskId = Some r →
  completeTask taskId status now now' q
  = processNext now' (release taskId status now r q).
Proof. intros Hr. unfold completeTask. by rewrite Hr. Qed.

Lemma failTask_release taskId now now' q r :
  processing q !! taskId = Some r →
  failTask taskId now now' q
  = processNext now' (release taskId TaskStatus.failed now r q).
Proof. intros Hr. unfold failTask. by rewrite Hr. Qed.

Lemma sameIdentity_refl a : sameIdentity a a.
Proof. by repeat split. Qed.


Lemma insert_sameIdentity (h : ref → Task.t) r task x :
  sameIdentity task (h r) → sameIdentity ((<[r := task]> h) x) (h x).
Proof.
  intros Hsame. destruct (decide (x = r)) as [-> | Hne].
  - by rewrite fn_lookup_insert.
  - rewrite fn_lookup_insert_ne by done. apply sameIdentity_refl.
Qed.

Lemma enqueue_heap task q r :
  sameIdentity (heap (enqueue task q) r) (heap q r)
  ∧ Task.status (heap (enqueue task q) r) = Task.status (heap q r)
  ∧ Task.startedAt (heap (enqueue task q) r) = Task.startedAt (heap q r)
  ∧ (r ≠ task → heap (enqueue task q) r = heap q r).
Proof. unfold enqueue. simpl. by destruct (0 <? _)%nat. Qed.


Lemma release_arrays taskId status now r q :
  arrays (release taskId status now r q) = arrays q.
Proof. reflexivity. Qed.


Lemma enqueue_fields task q :
  queue (enqueue task q)
  = sort (λ a b, compareTasks (heap (enqueue task q) a)
                              (heap (enqueue task q) b))
         (queue q ++ [task])
  ∧ processing (enqueue task q) = processing q
  ∧ resourceLocks (enqueue task q) = resourceLocks q
  ∧ maxConcurrent (enqueue task q) = maxConcurrent q.
Proof. unfold enqueue. simpl. by destruct (0 <? _)%nat. Qed.

Lemma release_heap taskId status now r q x :
  sameIdentity (heap (release taskId status now r q) x) (heap q x)
  ∧ (x ≠ r → heap (release taskId status now r q) x = heap q x).
Proof.
  unfold release. simpl. split.
  - apply insert_sameIdentity. by repeat split.
  - intros Hne. by rewrite fn_lookup_insert_ne.
Qed.






(** ** The order of the backlog *)










(** ** Where a submitted task goes *)










(** ** The in-flight map *)

Lemma processNext_inFlightMarked now q :
  inFlightMarked q → inFlightMarked (processNext now q).
Proof.
  intros Hq.
  destruct (processNext_cases now q)
    as [-> | (r & ? & ? & _ & _ & _ & _ & ->)]; [done|].
  intros taskId r0 Hin. simpl in *.
  destruct (decide (taskId = Task.id (heap q r))) as [-> | Hne].
  - rewrite lookup_insert_eq in Hin. injection Hin as <-.
    rewrite fn_lookup_insert. by split_and!.
  - rewrite lookup_insert_ne in Hin by done.
    destruct (Hq _ _ Hin) as (Hid & Hstatus & Hstarted).
    destruct (decide (r0 = r)) as [-> | Hr]; [done|].
    by rewrite fn_lookup_insert_ne.
Qed.

Lemma release_inFlightMarked taskId status now r q :
  processing q !! taskId = Some r → inFlightMarked q →
  inFlightMarked (release taskId status now r q).
Proof.
  intros Hr Hq taskId' r' Hin. simpl in Hin.
  apply lookup_delete_Some in Hin as [Hne Hin].
  destruct (Hq _ _ Hin) as (Hid' & Hstatus & Hstarted).
  assert (r' ≠ r).
  { intros ->. destruct (Hq _ _ Hr) as (Hid & _). congruence. }
  by rewrite (proj2 (release_heap taskId status now r q r')).
Qed.

Lemma run_inFlightMarked c q : inFlightMarked q → inFlightMarked (run c q).
Proof.
  intros Hq.
  destruct c as [task now | taskId status now now' | taskId now now' | now];
    simpl.
  - rewrite addTask_enqueue. apply processNext_inFlightMarked.
    intros taskId r Hin. rewrite (proj1 (proj2 (enqueue_fields task q))) in Hin.
    destruct (enqueue_heap task q r) as ((Hid & _) & Hstatus & Hstarted & _).
    rewrite Hid, Hstatus, Hstarted. by apply Hq.
  - destruct (processing q !! taskId) as [r0|] eqn:Hr0.
    + rewrite (completeTask_release _ _ _ _ _ _ Hr0).
      by apply processNext_inFlightMarked, release_inFlightMarked.
    + unfold completeTask. by rewrite Hr0.
  - destruct (processing q !! taskId) as [r0|] eqn:Hr0.
    + rewrite (failTask_release _ _ _ _ _ Hr0).
      by apply processNext_inFlightMarked, release_inFlightMarked.
    + unfold failTask. by rewrite Hr0.
  - by apply processNext_inFlightMarked.
Qed.

(** X7: in every state reached from a new queue, whatever the ids and
    whatever the calls, each entry of the in-flight map stands under the
    id of its task, and that task has status [processing] and a start
    date. *)
Theorem in_flight_tasks_are_processing h a maxConcurrent0 q :
  reachable (new h a maxConcurrent0) q → inFlightMarked q.
Proof.
  induction 1 as [|q c _ IH].
  - intros taskId r Hin. simpl in Hin. by rewrite lookup_empty in Hin.
  - by apply run_inFlightMarked.
Qed.

Lemma in_flight_tasks_are_processing_witness :
  reachable (new sampleHeap sampleArrays 1) queueAB
  ∧ Task.status (heap queueAB 0) = TaskStatus.processing.
Proof.
  assert (Hreach : reachable (new sampleHeap sampleArrays 1) queueAB)
    by (do 2 apply reachable_run; apply reachable_init).
  split; [exact Hreach|].
  apply (in_flight_tasks_are_processing sampleHeap sampleArrays 1 queueAB Hreach "A" 0).
  reflexivity.
Defined.

Lemma processNext_processing now q :
  processing (processNext now q) = processing q
  ∨ ∃ r, r ∈ queue q
         ∧ processing (processNext now q)
           = <[Task.id (heap q r) := r]> (processing q).
Proof.
  destruct (processNext_cases now q)
    as [-> | (r & pre & post & _ & Hq & _ & _ & ->)]; [by left|].
  right. exists r. split; [|done].
  rewrite Hq. apply elem_of_app. right. apply list_elem_of_here.
Qed.

(** X8: a call admits at most one task, however many backlog tasks have
    become admissible and however many slots are free: of the ids in
    flight after a call, at most one was not in flight before it. *)
Theorem at_most_one_admission_per_call c q taskId1 taskId2 :
  processing q !! taskId1 = None →
  is_Some (processing (run c q) !! taskId1) →
  processing q !! taskId2 = None →
  is_Some (processing (run c q) !! taskId2) →
  taskId1 = taskId2.
Proof.
  assert (Hstep : ∀ now q1,
            (∀ k, is_Some (processing q1 !! k) → is_Some (processing q !! k)) →
            processing q !! taskId1 = None →
            is_Some (processing (processNext now q1) !! taskId1) →
            processing q !! taskId2 = None →
            is_Some (processing (processNext now q1) !! taskId2) →
            taskId1 = taskId2).
  { intros now q1 Hsub Hnone1 Hsome1 Hnone2 Hsome2.
    assert (Hnew : ∀ k, processing q !! k = None →
                        ¬ is_Some (processing q1 !! k)).
    { intros k Hk Hin. apply Hsub in Hin as [? Hin]. congruence. }
    destruct (processNext_processing now q1) as [Heq | (r & _ & Heq)];
      rewrite Heq in Hsome1, Hsome2.
    - by destruct (Hnew _ Hnone1).
    - destruct (decide (taskId1 = Task.id (heap q1 r))) as [-> | Hne1];
        destruct (decide (taskId2 = Task.id (heap q1 r))) as [-> | Hne2];
        try done.
      + rewrite lookup_insert_ne in Hsome2 by done. by destruct (Hnew _ Hnone2).
      + rewrite lookup_insert_ne in Hsome1 by done. by destruct (Hnew _ Hnone1).
      + rewrite lookup_insert_ne in Hsome1 by done. by destruct (Hnew _ Hnone1). }
  destruct c as [task now | taskId status now now' | taskId now now' | now];
    simpl.
  - rewrite addTask_enqueue. apply Hstep.
    intros k. by rewrite (proj1 (proj2 (enqueue_fields task q))).
  - destruct (processing q !! taskId) as [r0|] eqn:Hr0.
    + rewrite (completeTask_release _ _ _ _ _ _ Hr0). apply Hstep.
      intros k [x Hx]. simpl in Hx.
      apply lookup_delete_Some in Hx as [_ Hx]. by exists x.
    + unfold completeTask. rewrite Hr0. intros Hnone [? Hsome]. congruence.
  - destruct (processing q !! taskId) as [r0|] eqn:Hr0.
    + rewrite (failTask_release _ _ _ _ _ Hr0). apply Hstep.
      intros k [x Hx]. simpl in Hx.
      apply lookup_delete_Some in Hx as [_ Hx]. by exists x.
    + unfold failTask. rewrite Hr0. intros Hnone [? Hsome]. congruence.
  - by apply Hstep.
Qed.

Lemma at_most_one_admission_per_call_witness :
  processing (new sampleHeap sampleArrays 3) !! "A" = None
  ∧ is_Some (processing (run (AddTask 0 10) (new sampleHeap sampleArrays 3)) !! "A")
  ∧ ∀ taskId,
      processing (new sampleHeap sampleArrays 3) !! taskId = None →
      is_Some (processing (run (AddTask 0 10) (new sampleHeap sampleArrays 3)) !! taskId) →
      "A" = taskId.
Proof.
  split; [reflexivity|]. split; [by eexists|].
  intros taskId.
  apply (at_most_one_admission_per_call (AddTask 0 10) (new sampleHeap sampleArrays 3)
           "A" taskId); [reflexivity | by eexists].
Defined.

Lemma processNext_keeps now q r :
  r ∈ queue q →
  r ∈ queue (processNext now q)
  ∨ is_Some (processing (processNext now q) !! Task.id (heap q r)).
Proof.
  intros Hr.
  destruct (processNext_cases now q)
    as [-> | (r0 & ? & ? & _ & _ & _ & _ & ->)]; [by left|].
  simpl. destruct (decide (Task.id (heap q r) = Task.id (heap q r0)))
    as [Hid | Hne].
  - right. rewrite Hid, lookup_insert_eq. by eexists.
  - left. apply list_elem_of_In, filter_In. split; [by apply list_elem_of_In|].
    by apply negb_true_iff, bool_decide_eq_false.
Qed.

(** X9: no task is dropped. After a call, every object that was in the
    backlog, and the object the call submitted, is in the backlog or a
    task with its id is in flight. *)
Theorem backlog_objects_are_kept_or_in_flight c q r :
  r ∈ queue q ∨ submitted c = Some r →
  r ∈ queue (run c q)
  ∨ is_Some (processing (run c q) !! Task.id (heap q r)).
Proof.
  intros Hr.
  destruct c as [task now | taskId status now now' | taskId now now' | now];
    simpl in *.
  - rewrite addTask_enqueue.
    destruct (enqueue_heap task q r) as ((<- & _) & _).
    apply processNext_keeps.
    rewrite (proj1 (enqueue_fields task q)), sort_perm, elem_of_app,
      list_elem_of_singleton.
    destruct Hr as [Hr | [= ->]]; [by left | by right].
  - destruct Hr as [Hr | ?]; [|done].
    destruct (processing q !! taskId) as [r0|] eqn:Hr0.
    + rewrite (completeTask_release _ _ _ _ _ _ Hr0).
      destruct (release_heap taskId status now r0 q r) as ((<- & _) & _).
      by apply processNext_keeps.
    + unfold completeTask. rewrite Hr0. by left.
  - destruct Hr as [Hr | ?]; [|done].
    destruct (processing q !! taskId) as [r0|] eqn:Hr0.
    + rewrite (failTask_release _ _ _ _ _ Hr0).
      destruct (release_heap taskId TaskStatus.failed now r0 q r)
        as ((<- & _) & _).
      by apply processNext_keeps.
    + unfold failTask. rewrite Hr0. by left.
  - destruct Hr as [Hr | ?]; [|done]. by apply processNext_keeps.
Qed.

Lemma backlog_objects_are_kept_or_in_flight_witness :
  1 ∈ queue (run (AddTask 1 11) queueA)
  ∨ is_Some (processing (run (AddTask 1 11) queueA)
               !! Task.id (heap queueA 1)).
Proof.
  apply (backlog_objects_are_kept_or_in_flight (AddTask 1 11) queueA 1).
  by right.
Defined.

(** ** Locking and unlocking *)

(** X10: [unlockResources] undoes [lockResources]. After a task locked
    and then unlocked its resources none of them is locked, whoever held
    them before, and every other entry of the lock table is as it was; when
    none of the resources was locked before, the table is back to what it
    was. *)
Theorem unlock_after_lock task locks :
  (∀ resource, resource ∈ Task.resources task →
     unlockResources task (lockResources task locks) !! resource = None)
  ∧ (∀ resource, resource ∉ Task.resources task →
       unlockResources task (lockResources task locks) !! resource
       = locks !! resource)
  ∧ ((∀ resource, resource ∈ Task.resources task → locks !! resource = None) →
     unlockResources task (lockResources task locks) = locks).
Proof.
  assert (Hin : ∀ resource, resource ∈ Task.resources task →
            unlockResources task (lockResources task locks) !! resource = None).
  { intros resource Hres.
    rewrite unlockResources_lookup, lockResources_lookup.
    rewrite (decide_True (P := resource ∈ Task.resources task)) by done.
    by rewrite decide_True. }
  assert (Hout : ∀ resource, resource ∉ Task.resources task →
            unlockResources task (lockResources task locks) !! resource
            = locks !! resource).
  { intros resource Hres.
    rewrite unlockResources_lookup, lockResources_lookup.
    rewrite (decide_False (P := resource ∈ Task.resources task)) by done.
    rewrite decide_False; [done|]. by intros [? _]. }
  split_and!; [done..|].
  intros Hfree. apply map_eq. intros resource.
  destruct (decide (resource ∈ Task.resources task)) as [Hres | Hres].
  - by rewrite Hin, Hfree.
  - by apply Hout.
Qed.

Lemma unlock_after_lock_witness :
  unlockResources (sampleHeap 0) (lockResources (sampleHeap 0) ∅) = ∅.
Proof.
  apply (unlock_after_lock (sampleHeap 0) ∅). intros resource _.
  apply lookup_empty.
Defined.

Lemma reachableProper_consistent h a maxConcurrent0 q :
  reachableProper (new h a maxConcurrent0) q → consistent q.
Proof.
  induction 1 as [|q c _ IH Hproper].
  - split_and!.
    + intros taskId r Hr. simpl in Hr. by rewrite lookup_empty in Hr.
    + intros r Hr. simpl in Hr. by apply not_elem_of_nil in Hr.
    + intros resource l. simpl. rewrite lookup_empty. split; [done|].
      intros (r & Hr & _). by rewrite lookup_empty in Hr.
  - by apply run_consistent.
Qed.

Lemma release_then_processNext taskId status now now' r q :
  consistent q → processing q !! taskId = Some r →
  let q' := processNext now' (release taskId status now r q) in
  processing q' !! taskId = None
  ∧ (∀ resource, resourceLocks q' !! resource ≠ Some taskId)
  ∧ heap q' r = Task.set_completedAt now (Task.set_status status (heap q r)).
Proof.
  intros Hq Hr q'.
  assert (Hq1 : consistent (release taskId status now r q))
    by exact (release_consistent taskId status now r q Hr Hq).
  assert (Hq' : consistent q') by by apply processNext_consistent.
  destruct Hq as (Hkeyed & Hfresh & _).
  destruct (Hkeyed _ _ Hr) as [Hid _].
  assert (Hstep : q' = release taskId status now r q
                  ∨ ∃ r0, r0 ∈ queue q
                          ∧ q' = startTask now' r0
                                   (release taskId status now r q)).
  { unfold q'. destruct (processNext_cases now' (release taskId status now r q))
      as [-> | (r0 & pre & post & _ & Hqueue & _ & _ & ->)]; [by left|].
    right. exists r0. split; [|done].
    change (queue q) with (queue (release taskId status now r q)).
    rewrite Hqueue. apply elem_of_app. right. apply list_elem_of_here. }
  assert (Hgone : processing q' !! taskId = None
                  ∧ heap q' r
                    = Task.set_completedAt now
                        (Task.set_status status (heap q r))).
  { destruct Hstep as [-> | (r0 & Hr0 & ->)]; simpl.
    - rewrite lookup_delete_eq. by rewrite fn_lookup_insert.
    - destruct (Hfresh r0 Hr0) as [_ Hidle].
      assert (Hne : r0 ≠ r) by (intros ->; congruence).
      rewrite (fn_lookup_insert_ne _ r r0) by done.
      assert (Hother : Task.id (heap q r0) ≠ taskId)
        by (intros Heq; rewrite Heq in Hidle; congruence).
      rewrite lookup_insert_ne by done. rewrite lookup_delete_eq.
      split; [done|].
      rewrite fn_lookup_insert_ne by done. by rewrite fn_lookup_insert. }
  destruct Hgone as [Hgone Hheap]. split_and!; [done| |done].
  intros resource Hlock. destruct Hq' as (_ & _ & Hexact).
  apply Hexact in Hlock as (r0 & Hr0 & _). congruence.
Qed.

(** X11: reporting releases the task. From a new queue, when every
    submitted task has a non-empty id that is not the id of a task in
    flight, [completeTask] and [failTask] on an in-flight id leave no entry
    for it in the in-flight map and no resource locked by it, and its
    object has the reported status ([failed] for [failTask]) and the
    completion date, even after the [processNext] that follows. *)
Theorem reported_task_is_released h a maxConcurrent0 q taskId status now now' r :
  reachableProper (new h a maxConcurrent0) q →
  processing q !! taskId = Some r →
  (let q' := completeTask taskId status now now' q in
   processing q' !! taskId = None
   ∧ (∀ resource, resourceLocks q' !! resource ≠ Some taskId)
   ∧ Task.status (heap q' r) = status
   ∧ Task.completedAt (heap q' r) = Some now)
  ∧ (let q' := failTask taskId now now' q in
     processing q' !! taskId = None
     ∧ (∀ resource, resourceLocks q' !! resource ≠ Some taskId)
     ∧ Task.status (heap q' r) = TaskStatus.failed
     ∧ Task.completedAt (heap q' r) = Some now).
Proof.
  intros Hreach Hr. apply reachableProper_consistent in Hreach.
  split; cbn zeta.
  - rewrite (completeTask_release _ _ _ _ _ _ Hr).
    destruct (release_then_processNext taskId status now now' r q Hreach Hr)
      as (Hgone & Hlocks & ->).
    by split_and!.
  - rewrite (failTask_release _ _ _ _ _ Hr).
    destruct (release_then_processNext taskId TaskStatus.failed now now' r q
                Hreach Hr) as (Hgone & Hlocks & ->).
    by split_and!.
Qed.

Lemma reported_task_is_released_witness :
  reachableProper (new sampleHeap sampleArrays 1) queueAB
  ∧ processing queueAB !! "A" = Some 0
  ∧ processing (completeTask "A" TaskStatus.completed 12 13 queueAB) !! "A"
    = None.
Proof.
  assert (Hreach : reachableProper (new sampleHeap sampleArrays 1) queueAB).
  { apply reachableProper_run; [apply reachableProper_run|].
    - apply reachableProper_init.
    - split; [done | reflexivity].
    - split; [done | reflexivity]. }
  split; [exact Hreach|]. split; [reflexivity|].
  apply (reported_task_is_released sampleHeap sampleArrays 1 queueAB "A"
           TaskStatus.completed 12 13 0 Hreach eq_refl).
Defined.

(** ** The status of a task *)

Lemma processNext_nextTask now q :
  processNext now q
  = match nextTask q with
    | Some r => startTask now r q
    | None => q
    end.
Proof.
  unfold processNext, nextTask.
  destruct (maxConcurrent q <=? Z.of_nat (size (processing q)))%Z; [done|].
  by destruct (List.find _ (queue q)).
Qed.

Lemma nextTask_elem q r : nextTask q = Some r → r ∈ queue q.
Proof.
  unfold nextTask.
  destruct (maxConcurrent q <=? Z.of_nat (size (processing q)))%Z; [done|].
  intros (pre & post & -> & _)%find_some_split.
  apply elem_of_app. right. apply list_elem_of_here.
Qed.

Lemma startTask_status now r0 q r :
  Task.status (heap (startTask now r0 q) r)
  = if decide (Some r0 = Some r) then TaskStatus.processing
    else Task.status (heap q r).
Proof.
  simpl. case_decide as Hr.
  - injection Hr as ->. by rewrite fn_lookup_insert.
  - rewrite fn_lookup_insert_ne; [done|]. by intros ->.
Qed.

Lemma startTask_queue now r0 q r :
  r ∈ queue (startTask now r0 q) → r ∈ queue q ∧ r ≠ r0.
Proof.
  simpl. rewrite list_elem_of_In, filter_In, <- list_elem_of_In.
  intros [Hin Hid]. split; [done|]. intros ->.
  by rewrite bool_decide_true in Hid.
Qed.

Lemma startTask_processing now r0 q taskId r :
  processing (startTask now r0 q) !! taskId = Some r →
  r = r0 ∨ processing q !! taskId = Some r.
Proof.
  simpl. destruct (decide (taskId = Task.id (heap q r0))) as [-> | Hne].
  - rewrite lookup_insert_eq. intros [= <-]. by left.
  - rewrite lookup_insert_ne by done. by right.
Qed.

(** The state in which a call runs [processNext], if it runs it. *)
Lemma run_steps c q :
  ∃ q1,
    run c q = match admittedBy c q with
              | Some r => startTask
                            match c with
                            | AddTask _ now | ProcessNext now => now
                            | CompleteTask _ _ _ now'
                            | FailTask _ _ now' => now'
                            end r q1
              | None => q1
              end
    ∧ (∀ r, admittedBy c q = Some r → r ∈ queue q1)
    ∧ (∀ r, r ∈ queue q1 → r ∈ queue q ∨ submitted c = Some r)
    ∧ (∀ r, Task.id (heap q1 r) = Task.id (heap q r))
    ∧ (∀ r, Task.status (heap q1 r)
            = match reportedBy c q with
              | Some (r', status) =>
                  if decide (r' = r) then status else Task.status (heap q r)
              | None => Task.status (heap q r)
              end)
    ∧ (∀ taskId r, processing q1 !! taskId = Some r →
                   processing q !! taskId = Some r
                   ∧ ∀ status, reportedBy c q = Some (r, status) →
                               ∃ taskId', taskId' ≠ taskId
                                          ∧ processing q !! taskId' = Some r).
Proof.
  destruct c as [task now | taskId status now now' | taskId now now' | now];
    simpl.
  - exists (enqueue task q). rewrite addTask_enqueue, processNext_nextTask.
    split_and!; try done.
    + intros r. apply nextTask_elem.
    + intros r. rewrite (proj1 (enqueue_fields task q)), sort_perm, elem_of_app,
        list_elem_of_singleton. intros [Hin | ->]; [by left | by right].
    + intros r. apply enqueue_heap.
    + intros r. apply enqueue_heap.
    + intros taskId r. rewrite (proj1 (proj2 (enqueue_fields task q))).
      by split.
  - destruct (processing q !! taskId) as [r0|] eqn:Hr0.
    + exists (release taskId status now r0 q).
      rewrite (completeTask_release _ _ _ _ _ _ Hr0), processNext_nextTask.
      split_and!; try done.
      * intros r. apply nextTask_elem.
      * intros r Hin. by left.
      * intros r. apply release_heap.
      * intros r. simpl. case_decide as Hr.
        -- subst r. by rewrite fn_lookup_insert.
        -- by rewrite fn_lookup_insert_ne.
      * intros k r. simpl. intros [Hne Hin]%lookup_delete_Some.
        split; [done|]. intros status' [= <- _]. by exists taskId.
    + exists q. unfold completeTask. rewrite Hr0. split_and!; try done.
      intros r Hin. by left.
  - destruct (processing q !! taskId) as [r0|] eqn:Hr0.
    + exists (release taskId TaskStatus.failed now r0 q).
      rewrite (failTask_release _ _ _ _ _ Hr0), processNext_nextTask.
      split_and!; try done.
      * intros r. apply nextTask_elem.
      * intros r Hin. by left.
      * intros r. apply release_heap.
      * intros r. simpl. case_decide as Hr.
        -- subst r. by rewrite fn_lookup_insert.
        -- by rewrite fn_lookup_insert_ne.
      * intros k r. simpl. intros [Hne Hin]%lookup_delete_Some.
        split; [done|]. intros status' [= <- _]. by exists taskId.
    + exists q. unfold failTask. rewrite Hr0. split_and!; try done.
      intros r Hin. by left.
  - exists q. rewrite processNext_nextTask. split_and!; try done.
    + intros r. apply nextTask_elem.
    + intros r Hin. by left.
Qed.

Lemma run_status c q r :
  Task.status (heap (run c q) r)
  = if decide (admittedBy c q = Some r) then TaskStatus.processing
    else match reportedBy c q with
         | Some (r', status) =>
             if decide (r' = r) then status else Task.status (heap q r)
         | None => Task.status (heap q r)
         end.
Proof.
  destruct (run_steps c q) as (q1 & -> & _ & _ & _ & Hstatus & _).
  destruct (admittedBy c q) as [r0|].
  - rewrite startTask_status. case_decide; [done | apply Hstatus].
  - rewrite decide_False by done. apply Hstatus.
Qed.

Lemma run_admitted c q r :
  admittedBy c q = Some r →
  processing (run c q) !! Task.id (heap q r) = Some r ∧ r ∉ queue (run c q).
Proof.
  intros Hadmitted.
  destruct (run_steps c q) as (q1 & -> & _ & _ & Hid & _).
  rewrite Hadmitted. split.
  - simpl. by rewrite Hid, lookup_insert_eq.
  - intros Hin. by apply startTask_queue in Hin as [_ Hne].
Qed.

Lemma run_in_flight c q taskId r :
  processing (run c q) !! taskId = Some r →
  admittedBy c q = Some r ∨ processing q !! taskId = Some r.
Proof.
  destruct (run_steps c q) as (q1 & -> & _ & _ & _ & _ & Hprocessing).
  destruct (admittedBy c q) as [r0|].
  - intros [-> | Hin]%startTask_processing; [by left|].
    right. by apply Hprocessing.
  - intros Hin. right. by apply Hprocessing.
Qed.

Lemma run_backlog c q r :
  r ∈ queue (run c q) →
  (r ∈ queue q ∨ submitted c = Some r) ∧ admittedBy c q ≠ Some r.
Proof.
  intros Hin. split.
  - destruct (run_steps c q) as (q1 & Hrun & _ & Hqueue & _).
    rewrite Hrun in Hin. destruct (admittedBy c q) as [r0|].
    + apply startTask_queue in Hin as [Hin _]. by apply Hqueue.
    + by apply Hqueue.
  - intros Hadmitted. by apply run_admitted in Hadmitted as [_ Hnotin].
Qed.

Lemma reportedBy_Some c q r status :
  reportedBy c q = Some (r, status) →
  submitted c = None
  ∧ (∃ taskId, processing q !! taskId = Some r)
  ∧ (orderly c q →
     status = TaskStatus.completed ∨ status = TaskStatus.failed).
Proof.
  destruct c as [task now | taskId status' now now' | taskId now now' | now];
    simpl; try done.
  - destruct (processing q !! taskId) as [r0|] eqn:Hr0; [|done].
    intros [= <- <-]. split_and!; [done | by exists taskId | done].
  - destruct (processing q !! taskId) as [r0|] eqn:Hr0; [|done].
    intros [= <- <-]. split_and!; [done | by exists taskId | by right].
Qed.

Lemma run_backlogQueued c q :
  orderly c q → inFlightMarked q → backlogQueued q → backlogQueued (run c q).
Proof.
  intros Hc Hflight Hbacklog r Hin.
  apply run_backlog in Hin as [Hin Hnot].
  rewrite run_status, decide_False by done.
  assert (Hqueued : Task.status (heap q r) = TaskStatus.queued).
  { destruct Hin as [Hin | Hsubmitted]; [by apply Hbacklog|].
    destruct c; simpl in *; try done. by injection Hsubmitted as ->. }
  destruct (reportedBy c q) as [[r' status]|] eqn:Hreported; [|done].
  case_decide as Hr; [|done]. subst r'.
  apply reportedBy_Some in Hreported as (_ & [taskId Hr] & _).
  apply Hflight in Hr as (_ & Hprocessing & _). congruence.
Qed.

Lemma run_forward c q r :
  orderly c q → inFlightMarked q → backlogQueued q →
  forwardStep (Task.status (heap q r)) (Task.status (heap (run c q) r)).
Proof.
  intros Hc Hflight Hbacklog. rewrite run_status.
  case_decide as Hadmitted.
  - right. left. split; [|done].
    destruct (run_steps c q) as (q1 & _ & Hpicked & Hqueue & _).
    destruct (Hqueue r (Hpicked r Hadmitted)) as [Hin | Hsubmitted];
      [by apply Hbacklog|].
    destruct c; simpl in *; try done. by injection Hsubmitted as ->.
  - destruct (reportedBy c q) as [[r' status]|] eqn:Hreported; [|by left].
    case_decide as Hr; [|by left]. subst r'.
    apply reportedBy_Some in Hreported as (_ & [taskId Hr] & Hstatus).
    apply Hflight in Hr as (_ & Hprocessing & _).
    right. right. split; [done | by apply Hstatus].
Qed.

Lemma reachableOrderly_invariant h a maxConcurrent0 q :
  reachableOrderly (new h a maxConcurrent0) q →
  inFlightMarked q ∧ backlogQueued q.
Proof.
  induction 1 as [|q c _ [IHflight IHbacklog] Hc].
  - split.
    + intros taskId r Hin. simpl in Hin. by rewrite lookup_empty in Hin.
    + intros r Hin. simpl in Hin. by apply not_elem_of_nil in Hin.
  - split; [by apply run_inFlightMarked | by apply run_backlogQueued].
Qed.

(** C4, as the code has it: the status of a task object after a call is
    the one three writes give it, and the old one when none applies.
    Admission by the [processNext] the call runs sets it to [processing],
    whatever it was; otherwise [completeTask] on the in-flight task sets
    it to the final status passed, any [TaskStatus], and [failTask] on it
    to [failed]. The object admitted is in flight afterwards, and no other
    object enters the in-flight map. [completeTask] and [failTask] on an
    id that is not in flight return the queue unchanged. When every task
    is submitted with status [queued] and [completeTask] is given
    [completed] or [failed], each call leaves the status of an object as
    it is or moves it from [queued] to [processing] or from [processing]
    to [completed] or [failed]. *)
Theorem status_written_by_admission_or_report c q r :
  Task.status (heap (run c q) r)
  = (if decide (admittedBy c q = Some r) then TaskStatus.processing
     else match reportedBy c q with
          | Some (r', status) =>
              if decide (r' = r) then status else Task.status (heap q r)
          | None => Task.status (heap q r)
          end)
  ∧ (admittedBy c q = Some r →
     processing (run c q) !! Task.id (heap q r) = Some r)
  ∧ (∀ taskId, processing (run c q) !! taskId = Some r →
               admittedBy c q = Some r ∨ processing q !! taskId = Some r)
  ∧ (∀ taskId status now now',
       processing q !! taskId = None →
       completeTask taskId status now now' q = q
       ∧ failTask taskId now now' q = q)
  ∧ (∀ h a maxConcurrent0,
       reachableOrderly (new h a maxConcurrent0) q → orderly c q →
       forwardStep (Task.status (heap q r))
                   (Task.status (heap (run c q) r))).
Proof.
  split_and!.
  - apply run_status.
  - intros Hadmitted. by apply run_admitted.
  - intros taskId. apply run_in_flight.
  - intros taskId status now now' Hnone. unfold completeTask, failTask.
    by rewrite Hnone.
  - intros h a maxConcurrent0 Hreach Hc.
    destruct (reachableOrderly_invariant h a maxConcurrent0 q Hreach)
      as [Hflight Hbacklog].
    by apply run_forward.
Qed.

Lemma status_written_witness :
  admittedBy (AddTask 0 10) (new sampleHeap sampleArrays 1) = Some 0
  ∧ Task.status (heap queueA 0) = TaskStatus.processing
  ∧ reportedBy (CompleteTask "A" TaskStatus.completed 12 13) queueAB
    = Some (0, TaskStatus.completed)
  ∧ Task.status
      (heap (run (CompleteTask "A" TaskStatus.completed 12 13) queueAB) 0)
    = TaskStatus.completed
  ∧ admittedBy (CompleteTask "A" TaskStatus.completed 12 13) queueAB = Some 1
  ∧ Task.status
      (heap (run (CompleteTask "A" TaskStatus.completed 12 13) queueAB) 1)
    = TaskStatus.processing
  ∧ forwardStep TaskStatus.processing
      (Task.status
         (heap (run (CompleteTask "A" TaskStatus.completed 12 13) queueAB) 0)).
Proof.
  assert (Hreach : reachableOrderly (new sampleHeap sampleArrays 1) queueAB).
  { apply (reachableOrderly_run _ _ (AddTask 1 11)); [|reflexivity].
    apply (reachableOrderly_run _ _ (AddTask 0 10)); [|reflexivity].
    apply reachableOrderly_init. }
  split_and!.
  - reflexivity.
  - change queueA with (run (AddTask 0 10) (new sampleHeap sampleArrays 1)).
    rewrite (proj1 (status_written_by_admission_or_report
                      (AddTask 0 10) (new sampleHeap sampleArrays 1) 0)).
    reflexivity.
  - reflexivity.
  - rewrite (proj1 (status_written_by_admission_or_report
                      (CompleteTask "A" TaskStatus.completed 12 13) queueAB 0)).
    reflexivity.
  - reflexivity.
  - rewrite (proj1 (status_written_by_admission_or_report
                      (CompleteTask "A" TaskStatus.completed 12 13) queueAB 1)).
    reflexivity.
  - destruct (status_written_by_admission_or_report
                (CompleteTask "A" TaskStatus.completed 12 13) queueAB 0)
      as (_ & _ & _ & _ & Hforward).
    apply (Hforward sampleHeap sampleArrays 1%Z Hreach). by left.
Defined.

(** C4 as stated fails: ["A"] is [processing], and [completeTask] with the
    final status [queued] moves it back to [queued]; with the final status
    [waiting_approval] it gets a status outside the four of the claim. *)
Lemma completeTask_can_move_status_back :
  processing queueA !! "A" = Some 0
  ∧ Task.status (heap queueA 0) = TaskStatus.processing
  ∧ Task.status (heap (completeTask "A" TaskStatus.queued 12 13 queueA) 0)
    = TaskStatus.queued
  ∧ Task.status
      (heap (completeTask "A" TaskStatus.waiting_approval 12 13 queueA) 0)
    = TaskStatus.waiting_approval.
Proof. split_and!; reflexivity. Qed.

End TaskQueueFurther.

(** * Further properties of the approval engine *)

Section ApprovalEngineFurther.
Import ApprovalEngine.

Local Ltac run_call :=
  unfold createWorkflow, approve, reject, emergencyApprove, store, modify,
    getOrThrow, gets, bind, ret, throw; simpl.

(** ** The permission matrix *)

(** X12: the permission matrix is a hierarchy. A user may approve a stage
    exactly when the rank of the user's role (developer below admin below
    superadmin) is at least the rank of the role the stage asks for. *)
Theorem canApprove_is_rank_order user stage :
  canApprove user stage = true
  ↔ roleRank (ApprovalStage.role stage) ≤ roleRank (User.role user).
Proof.
  unfold canApprove.
  destruct (User.role user), (ApprovalStage.role stage); simpl;
    split; (done || lia).
Qed.

Lemma canApprove_is_rank_order_witness :
  roleRank (ApprovalStage.role developerStage) ≤ roleRank (User.role adm)
  ∧ canApprove adm developerStage = true.
Proof.
  split; [simpl; lia|].
  apply (canApprove_is_rank_order adm developerStage). simpl. lia.
Defined.

(** ** Advancing a workflow *)

Lemma advanceWorkflow_unfold workflow :
  advanceWorkflow workflow
  = match ApprovalWorkflow.stages workflow
            !! (ApprovalWorkflow.currentStage workflow + 1) with
    | None =>
        (ApprovalWorkflow.set_status WorkflowStatus.approved workflow, true)
    | Some nextStage =>
        if negb (ApprovalStage.required nextStage)
        then advanceWorkflow
               (ApprovalWorkflow.set_currentStage
                  (ApprovalWorkflow.currentStage workflow + 1) workflow)
        else (ApprovalWorkflow.set_currentStage
                (ApprovalWorkflow.currentStage workflow + 1) workflow, false)
    end.
Proof.
  funelim (advanceWorkflow workflow); by rewrite Hnext.
Qed.

Lemma drop_head_lookup {A} (l : list A) n x rest :
  drop n l = x :: rest → l !! n = Some x ∧ drop (S n) l = rest.
Proof.
  revert n. induction l as [|a l IH]; intros [|n]; simpl; try done.
  - by intros [= -> ->].
  - apply IH.
Qed.

Lemma drop_nil_lookup {A} (l : list A) n : drop n l = [] → l !! n = None.
Proof.
  revert n. induction l as [|a l IH]; intros [|n]; simpl; try done.
  apply IH.
Qed.

Lemma advanceWorkflow_skips skipped :
  ∀ workflow next rest,
    drop (S (ApprovalWorkflow.currentStage workflow))
         (ApprovalWorkflow.stages workflow) = skipped ++ next :: rest →
    (∀ s, s ∈ skipped → ApprovalStage.required s = false) →
    ApprovalStage.required next = true →
    advanceWorkflow workflow
    = (ApprovalWorkflow.set_currentStage
         (ApprovalWorkflow.currentStage workflow + 1 + length skipped)
         workflow, false).
Proof.
  induction skipped as [|s skipped IH]; intros workflow next rest Hdrop Hskip Hnext;
    rewrite advanceWorkflow_unfold; simpl in Hdrop;
    apply drop_head_lookup in Hdrop as [Hlookup Hdrop];
    rewrite Nat.add_1_r, Hlookup.
  - rewrite Hnext. simpl. by rewrite Nat.add_0_r.
  - rewrite (Hskip s (list_elem_of_here _ _)). simpl.
    rewrite (IH _ next rest); simpl.
    + unfold ApprovalWorkflow.set_currentStage. simpl. do 2 f_equal. lia.
    + exact Hdrop.
    + intros s' Hs'. apply Hskip, elem_of_cons. by right.
    + done.
Qed.

Lemma advanceWorkflow_exhausts rest :
  ∀ workflow,
    drop (S (ApprovalWorkflow.currentStage workflow))
         (ApprovalWorkflow.stages workflow) = rest →
    (∀ s, s ∈ rest → ApprovalStage.required s = false) →
    advanceWorkflow workflow
    = (ApprovalWorkflow.set_status WorkflowStatus.approved
         (ApprovalWorkflow.set_currentStage
            (ApprovalWorkflow.currentStage workflow + length rest) workflow),
       true).
Proof.
  induction rest as [|s rest IH]; intros workflow Hdrop Hskip;
    rewrite advanceWorkflow_unfold, Nat.add_1_r.
  - rewrite (drop_nil_lookup _ _ Hdrop). simpl. rewrite Nat.add_0_r.
    by destruct workflow.
  - apply drop_head_lookup in Hdrop as [Hlookup Hdrop]. rewrite Hlookup.
    rewrite (Hskip s (list_elem_of_here _ _)). simpl.
    rewrite (IH _); simpl.
    + unfold ApprovalWorkflow.set_status, ApprovalWorkflow.set_currentStage.
      simpl. do 2 f_equal. lia.
    + exact Hdrop.
    + intros s' Hs'. apply Hskip, elem_of_cons. by right.
Qed.

Lemma advanceWorkflow_keeps_fields workflow :
  ApprovalWorkflow.stages (advanceWorkflow workflow).1
  = ApprovalWorkflow.stages workflow
  ∧ ApprovalWorkflow.taskId (advanceWorkflow workflow).1
    = ApprovalWorkflow.taskId workflow
  ∧ ApprovalWorkflow.requiredApprovals (advanceWorkflow workflow).1
    = ApprovalWorkflow.requiredApprovals workflow.
Proof.
  funelim (advanceWorkflow workflow).
  - destruct (ApprovalStage.required nextStage); simpl; [done|].
    match goal with IH : _ ∧ _ ∧ _ |- _ => exact IH end.
  - done.
Qed.

(** X13: [advanceWorkflow] moves to the next required stage. When a
    required stage follows the current one, [currentStage] becomes the
    index of the first such stage, nothing else changes and the result is
    [false]; when none follows, the status becomes [approved],
    [currentStage] ends on the last stage skipped (or stays where it was
    when no stage follows) and the result is [true]. The stages, the task
    id and [requiredApprovals] are never changed. *)
Theorem advanceWorkflow_goes_to_next_required workflow :
  let current := ApprovalWorkflow.currentStage workflow in
  let following := drop (S current) (ApprovalWorkflow.stages workflow) in
  (∀ skipped next rest,
     following = skipped ++ next :: rest →
     (∀ s, s ∈ skipped → ApprovalStage.required s = false) →
     ApprovalStage.required next = true →
     advanceWorkflow workflow
     = (ApprovalWorkflow.set_currentStage (current + 1 + length skipped)
          workflow, false))
  ∧ ((∀ s, s ∈ following → ApprovalStage.required s = false) →
     advanceWorkflow workflow
     = (ApprovalWorkflow.set_status WorkflowStatus.approved
          (ApprovalWorkflow.set_currentStage (current + length following)
             workflow), true))
  ∧ ApprovalWorkflow.stages (advanceWorkflow workflow).1
    = ApprovalWorkflow.stages workflow
  ∧ ApprovalWorkflow.taskId (advanceWorkflow workflow).1
    = ApprovalWorkflow.taskId workflow
  ∧ ApprovalWorkflow.requiredApprovals (advanceWorkflow workflow).1
    = ApprovalWorkflow.requiredApprovals workflow.
Proof.
  cbn zeta. split; [|split].
  - intros skipped next rest. apply advanceWorkflow_skips.
  - by apply advanceWorkflow_exhausts.
  - funelim (advanceWorkflow workflow).
    + destruct (ApprovalStage.required nextStage); simpl; [done|].
      match goal with IH : _ ∧ _ ∧ _ |- _ => exact IH end.
    + done.
Qed.

Lemma advanceWorkflow_goes_to_next_required_witness :
  advanceWorkflow
    (ApprovalWorkflow.mk "T" [developerStage; adminStage; superadminStage]
       1 2 WorkflowStatus.pending)
  = (ApprovalWorkflow.mk "T" [developerStage; adminStage; superadminStage]
       2 2 WorkflowStatus.approved, true).
Proof.
  apply (advanceWorkflow_goes_to_next_required
           (ApprovalWorkflow.mk "T"
              [developerStage; adminStage; superadminStage] 1 2
              WorkflowStatus.pending)).
  intros s Hs. apply list_elem_of_singleton in Hs as ->. reflexivity.
Defined.

(** ** One call *)

Lemma admin_or_superadmin_approves_adminStage user :
  User.role user ≠ UserRole.developer → canApprove user adminStage = true.
Proof. unfold canApprove. by destruct (User.role user). Qed.

Lemma approve_cases e taskId userId now :
  (∃ err, approve taskId userId now e = (e, Throw err))
  ∨ ∃ workflow user stage,
      workflows e !! taskId = Some workflow
      ∧ users e !! userId = Some user
      ∧ ApprovalWorkflow.stages workflow
          !! ApprovalWorkflow.currentStage workflow = Some stage
      ∧ canApprove user stage = true
      ∧ approve taskId userId now e
        = (mk (<[taskId :=
                   (advanceWorkflow
                      (ApprovalWorkflow.set_stages
                         (<[ApprovalWorkflow.currentStage workflow :=
                              ApprovalStage.approve userId now stage]>
                            (ApprovalWorkflow.stages workflow)) workflow)).1]>
                 (workflows e)) (users e),
           Return (advanceWorkflow
                     (ApprovalWorkflow.set_stages
                        (<[ApprovalWorkflow.currentStage workflow :=
                             ApprovalStage.approve userId now stage]>
                           (ApprovalWorkflow.stages workflow)) workflow)).2).
Proof.
  destruct (workflows e !! taskId) as [workflow|] eqn:Hw.
  2: { left. eexists. run_call. by rewrite Hw. }
  destruct (users e !! userId) as [user|] eqn:Hu.
  2: { left. eexists. run_call. by rewrite Hw, Hu. }
  destruct (ApprovalWorkflow.stages workflow
              !! ApprovalWorkflow.currentStage workflow) as [stage|] eqn:Hs.
  2: { left. eexists. run_call. rewrite Hw, Hu. simpl. by rewrite Hs. }
  destruct (canApprove user stage) eqn:Hok.
  - right. exists workflow, user, stage. split_and!; try done.
    exact (approve_allowed e taskId userId now workflow user stage
             Hw Hu Hs Hok).
  - left. eexists. run_call. rewrite Hw, Hu. simpl. rewrite Hs. simpl.
    by rewrite Hok.
Qed.

Lemma first_required_split (l : list ApprovalStage.t) :
  (∃ s, s ∈ l ∧ ApprovalStage.required s = true) →
  ∃ skipped next rest,
    l = skipped ++ next :: rest
    ∧ (∀ s, s ∈ skipped → ApprovalStage.required s = false)
    ∧ ApprovalStage.required next = true.
Proof.
  induction l as [|x l IH]; intros (s & Hin & Hs).
  - by apply not_elem_of_nil in Hin.
  - destruct (ApprovalStage.required x) eqn:Hx.
    + exists [], x, l. split_and!; [done | | done].
      intros s' Hs'. by apply not_elem_of_nil in Hs'.
    + apply elem_of_cons in Hin as [-> | Hin]; [congruence|].
      destruct IH as (skipped & next & rest & -> & Hskipped & Hnext);
        [by exists s|].
      exists (x :: skipped), next, rest. split_and!; [done | | done].
      intros s' [-> | Hs']%elem_of_cons; [done | by apply Hskipped].
Qed.

(** C3, as the code has it: no operation looks at the status a workflow
    already has. For an existing workflow, whatever its status, and a
    registered user: [reject] returns and sets the status to [rejected];
    [emergencyApprove] returns [true] and sets it to [approved] when the
    user is a superadmin, and throws without a write otherwise; [approve]
    by a user who may approve the current stage returns [true] and sets
    the status to [approved] when no required stage follows the current
    one, and returns [false] and leaves the status as it was when one
    does; and [approve] throws without a write when there is no current
    stage or the user may not approve it. *)
Theorem status_after_operation e taskId userId reason now workflow user :
  workflows e !! taskId = Some workflow →
  users e !! userId = Some user →
  let following :=
    drop (S (ApprovalWorkflow.currentStage workflow))
         (ApprovalWorkflow.stages workflow) in
  ((reject taskId userId reason e).2 = Return ()
   ∧ statusOf (reject taskId userId reason e).1 taskId
     = Some WorkflowStatus.rejected)
  ∧ (User.role user = UserRole.superadmin →
     (emergencyApprove taskId userId e).2 = Return true
     ∧ statusOf (emergencyApprove taskId userId e).1 taskId
       = Some WorkflowStatus.approved)
  ∧ (User.role user ≠ UserRole.superadmin →
     emergencyApprove taskId userId e = (e, Throw OnlySuperadmin))
  ∧ (∀ stage,
       ApprovalWorkflow.stages workflow
         !! ApprovalWorkflow.currentStage workflow = Some stage →
       canApprove user stage = true →
       ((∀ s, s ∈ following → ApprovalStage.required s = false) →
        (approve taskId userId now e).2 = Return true
        ∧ statusOf (approve taskId userId now e).1 taskId
          = Some WorkflowStatus.approved)
       ∧ ((∃ s, s ∈ following ∧ ApprovalStage.required s = true) →
          (approve taskId userId now e).2 = Return false
          ∧ statusOf (approve taskId userId now e).1 taskId
            = Some (ApprovalWorkflow.status workflow)))
  ∧ ((∀ stage,
        ApprovalWorkflow.stages workflow
          !! ApprovalWorkflow.currentStage workflow = Some stage →
        canApprove user stage = false) →
     ∃ err, approve taskId userId now e = (e, Throw err)).
Proof.
  intros Hw Hu following. unfold statusOf. split_and!.
  - run_call. by rewrite Hw, Hu.
  - run_call. rewrite Hw, Hu. simpl. by rewrite lookup_insert_eq.
  - intros Hrole. run_call. rewrite Hw. simpl. rewrite Hu.
    rewrite decide_False by (intros Hne; by apply Hne). simpl.
    by rewrite lookup_insert_eq.
  - intros Hrole. run_call. rewrite Hw. simpl. rewrite Hu.
    by rewrite decide_True.
  - intros stage Hs Hok.
    rewrite (approve_allowed e taskId userId now workflow user stage
               Hw Hu Hs Hok).
    cbn [fst snd workflows]. rewrite lookup_insert_eq. simpl.
    set (recorded := ApprovalWorkflow.set_stages _ workflow).
    assert (Hdrop : drop (S (ApprovalWorkflow.currentStage recorded))
                         (ApprovalWorkflow.stages recorded) = following).
    { unfold recorded. simpl. by rewrite drop_insert_lt by lia. }
    split.
    + intros Hnone.
      by rewrite (advanceWorkflow_exhausts following recorded Hdrop Hnone).
    + intros (skipped & next & rest & Hsplit & Hskipped & Hnext)
        %first_required_split.
      rewrite Hsplit in Hdrop.
      by rewrite (advanceWorkflow_skips skipped recorded next rest
                    Hdrop Hskipped Hnext).
  - intros Hnot.
    destruct (approve_cases e taskId userId now)
      as [Hthrow | (workflow' & user' & stage & Hw' & Hu' & Hs & Hok & _)];
      [done|].
    rewrite Hw in Hw'. injection Hw' as <-.
    rewrite Hu in Hu'. injection Hu' as <-.
    rewrite (Hnot stage Hs) in Hok. discriminate.
Qed.

Lemma status_after_operation_witness :
  statusOf engineApproved "T" = Some WorkflowStatus.approved
  ∧ users engineApproved !! "U2" = Some adm
  ∧ statusOf (reject "T" "U2" "no" engineApproved).1 "T"
    = Some WorkflowStatus.rejected
  ∧ (approve "T" "U2" 7 engineApproved).2 = Return false
  ∧ statusOf (approve "T" "U2" 7 engineApproved).1 "T"
    = Some WorkflowStatus.approved
  ∧ (approve "T" "U2" 7 (createWorkflow "T" "U2" engine0).1).2 = Return true
  ∧ statusOf (approve "T" "U2" 7 (createWorkflow "T" "U2" engine0).1).1 "T"
    = Some WorkflowStatus.approved.
Proof.
  pose proof (status_after_operation engineApproved "T" "U2" "no" 7
                (ApprovalWorkflow.mk "T"
                   [developerStage; adminStage; superadminStage] 0 2
                   WorkflowStatus.approved) adm eq_refl eq_refl)
    as ([_ Hreject] & _ & _ & Happrove & _).
  destruct (Happrove developerStage eq_refl eq_refl) as [_ Hfalse].
  destruct Hfalse as [Hresult Hstatus].
  { exists adminStage. split; [apply list_elem_of_here | reflexivity]. }
  pose proof (status_after_operation (createWorkflow "T" "U2" engine0).1
                "T" "U2" "no" 7
                (ApprovalWorkflow.mk "T" [adminStage; superadminStage] 0 1
                   WorkflowStatus.pending) adm eq_refl eq_refl)
    as (_ & _ & _ & Happrove' & _).
  destruct (Happrove' adminStage eq_refl eq_refl) as [Htrue _].
  destruct Htrue as [Hresult' Hstatus'].
  { intros s Hs. apply list_elem_of_singleton in Hs. by subst s. }
  by split_and!.
Defined.

(** X14: a workflow created for an admin or superadmin requester has one
    stage to approve. A single [approve] by a registered admin or
    superadmin returns [true] and leaves the workflow [approved]; an
    [approve] by a registered developer throws [CannotApprove] and leaves
    the engine as it was. *)
Theorem admin_workflow_needs_one_approval
    e taskId requesterId requester userId user now :
  users e !! requesterId = Some requester →
  User.role requester ≠ UserRole.developer →
  users e !! userId = Some user →
  let e1 := (createWorkflow taskId requesterId e).1 in
  (User.role user ≠ UserRole.developer →
   (approve taskId userId now e1).2 = Return true
   ∧ statusOf (approve taskId userId now e1).1 taskId
     = Some WorkflowStatus.approved)
  ∧ (User.role user = UserRole.developer →
     approve taskId userId now e1
     = (e1, Throw (CannotApprove userId UserRole.developer 2
                     UserRole.admin))).
Proof.
  intros Hreq Hrole Hu.
  rewrite (createWorkflow_registered _ taskId _ _ Hreq),
    (buildApprovalStages_other _ Hrole).
  cbn zeta. cbn [fst].
  set (w0 := ApprovalWorkflow.mk taskId _ 0 _ _).
  split.
  - intros Huser.
    rewrite (approve_allowed _ taskId userId now w0 user adminStage);
      [| by apply lookup_insert_eq | done | done | ].
    + unfold statusOf. cbn [fst snd workflows]. rewrite lookup_insert_eq.
      split; reflexivity.
    + apply admin_or_superadmin_approves_adminStage. done.
  - intros Huser. run_call. rewrite lookup_insert_eq. simpl. rewrite Hu. simpl.
    unfold canApprove. rewrite Huser. reflexivity.
Qed.

Lemma admin_workflow_needs_one_approval_witness :
  users engine0 !! "U2" = Some adm
  ∧ users engine0 !! "U3" = Some root
  ∧ statusOf (approve "T" "U3" 5 (createWorkflow "T" "U2" engine0).1).1 "T"
    = Some WorkflowStatus.approved.
Proof.
  split; [reflexivity|]. split; [reflexivity|].
  apply (admin_workflow_needs_one_approval engine0 "T" "U2" adm "U3" root 5);
    done.
Defined.

(** X15: [createWorkflow] and [emergencyApprove] that throw leave the
    engine as it was. [createWorkflow] throws exactly for an unregistered
    requester; [emergencyApprove] throws [WorkflowNotFound] when there is no
    workflow, whoever calls, and [OnlySuperadmin] when there is one and the
    user is unregistered or not a superadmin. *)
Theorem failed_create_or_emergency_changes_nothing e taskId userId :
  (∀ e' err,
     createWorkflow taskId userId e = (e', Throw err) →
     e' = e ∧ err = UserNotFound userId ∧ users e !! userId = None)
  ∧ (users e !! userId = None →
     createWorkflow taskId userId e = (e, Throw (UserNotFound userId)))
  ∧ (∀ e' err,
       emergencyApprove taskId userId e = (e', Throw err) →
       e' = e
       ∧ (err = WorkflowNotFound taskId ∧ workflows e !! taskId = None
          ∨ err = OnlySuperadmin
            ∧ is_Some (workflows e !! taskId)
            ∧ ∀ user, users e !! userId = Some user →
                      User.role user ≠ UserRole.superadmin))
  ∧ (workflows e !! taskId = None →
     emergencyApprove taskId userId e = (e, Throw (WorkflowNotFound taskId))).
Proof.
  split_and!.
  - intros e' err. run_call.
    destruct (users e !! userId) as [user|]; simpl; [done|].
    by intros [= <- <-].
  - intros Hu. run_call. by rewrite Hu.
  - intros e' err. run_call.
    destruct (workflows e !! taskId) as [workflow|]; simpl.
    + destruct (users e !! userId) as [user|]; simpl.
      * case_decide as Hrole; simpl; [|done].
        intros [= <- <-]. split; [done|]. right. split_and!; [done | by eexists |].
        by intros ? [= <-].
      * intros [= <- <-]. split; [done|]. right. split_and!; [done | by eexists |].
        done.
    + intros [= <- <-]. split; [done|]. by left.
  - intros Hw. run_call. by rewrite Hw.
Qed.

Lemma failed_create_or_emergency_witness :
  users engine0 !! "nobody" = None
  ∧ createWorkflow "T" "nobody" engine0
    = (engine0, Throw (UserNotFound "nobody"))
  ∧ emergencyApprove "T" "U3" engine0
    = (engine0, Throw (WorkflowNotFound "T")).
Proof.
  destruct (failed_create_or_emergency_changes_nothing engine0 "T" "nobody")
    as (_ & Hcreate & _).
  destruct (failed_create_or_emergency_changes_nothing engine0 "T" "U3")
    as (_ & _ & _ & Hemergency).
  split; [reflexivity|]. split; [by apply Hcreate | by apply Hemergency].
Defined.

(** ** The user registry *)

Lemma register_all_lookup (us : list User.t) (m : gmap string User.t) userId :
  foldl (λ m user, <[User.userId user := user]> m) m us !! userId
  = match list.last (filter (λ user, User.userId user = userId) us) with
    | Some user => Some user
    | None => m !! userId
    end.
Proof.
  revert m. induction us as [|u us IH]; intros m; simpl; [done|].
  rewrite IH. destruct (decide (User.userId u = userId)) as [Hid | Hne].
  - rewrite filter_cons_True by done. rewrite last_cons.
    destruct (list.last (filter _ us)); [done|].
    by rewrite <- Hid, lookup_insert_eq.
  - rewrite filter_cons_False by done.
    destruct (list.last (filter _ us)); [done|].
    by rewrite lookup_insert_ne.
Qed.

Lemma new_users_lookup us userId :
  users (new us) !! userId
  = list.last (filter (λ user, User.userId user = userId) us)
  ∧ workflows (new us) = ∅.
Proof.
  split; [|done]. unfold new. simpl. rewrite register_all_lookup.
  by destruct (list.last _).
Qed.

(** X16: the constructor registers users by their [userId], and of
    several users with the same id the last one of the list is kept: the
    lookup of an id gives the last user of the list with that id, and
    nothing when there is none. A new engine holds no workflow. *)
Theorem constructor_keeps_last_user_of_an_id us userId :
  users (new us) !! userId
  = list.last (filter (λ user, User.userId user = userId) us)
  ∧ workflows (new us) = ∅.
Proof.
  split; [|done]. unfold new. simpl. rewrite register_all_lookup.
  by destruct (list.last _).
Qed.

Lemma constructor_keeps_last_user_of_an_id_witness :
  users (new [dev; adm; User.mk "U1" "Eve" UserRole.superadmin []]) !! "U1"
  = Some (User.mk "U1" "Eve" UserRole.superadmin []).
Proof.
  by rewrite (proj1 (constructor_keeps_last_user_of_an_id
                       [dev; adm; User.mk "U1" "Eve" UserRole.superadmin []]
                       "U1")).
Defined.

(** ** Discarding and recreating a workflow *)

(** X17: [cleanup] discards the workflow of the task and nothing else, and
    doing it twice is doing it once; afterwards [approve] on the task
    throws [WorkflowNotFound]. [createWorkflow] for a registered requester
    does not depend on a workflow already stored for the task: it
    overwrites it, approvals included. *)
Theorem cleanup_and_recreate e taskId :
  cleanup taskId (cleanup taskId e) = cleanup taskId e
  ∧ getWorkflow taskId (cleanup taskId e) = None
  ∧ (∀ other, other ≠ taskId →
       getWorkflow other (cleanup taskId e) = getWorkflow other e)
  ∧ users (cleanup taskId e) = users e
  ∧ (∀ userId now,
       approve taskId userId now (cleanup taskId e)
       = (cleanup taskId e, Throw (WorkflowNotFound taskId)))
  ∧ (∀ requesterId requester,
       users e !! requesterId = Some requester →
       createWorkflow taskId requesterId (cleanup taskId e)
       = createWorkflow taskId requesterId e).
Proof.
  unfold cleanup, getWorkflow. simpl. split_and!.
  - by rewrite delete_delete_eq.
  - apply lookup_delete_eq.
  - intros other Hne. by apply lookup_delete_ne.
  - done.
  - intros userId now. run_call. by rewrite lookup_delete_eq.
  - intros requesterId requester Hreq. run_call. rewrite Hreq. simpl.
    by rewrite insert_delete_eq.
Qed.

Lemma cleanup_and_recreate_witness :
  users engineApproved !! "U2" = Some adm
  ∧ createWorkflow "T" "U2" (cleanup "T" engineApproved)
    = createWorkflow "T" "U2" engineApproved.
Proof.
  split; [reflexivity|].
  destruct (cleanup_and_recreate engineApproved "T")
    as (_ & _ & _ & _ & _ & Hcreate).
  by apply (Hcreate "U2" adm).
Defined.

(** ** What the engine keeps true of its workflows *)

Lemma advanceWorkflow_facts workflow :
  ApprovalWorkflow.currentStage workflow
  ≤ ApprovalWorkflow.currentStage (advanceWorkflow workflow).1
  ∧ (ApprovalWorkflow.currentStage workflow
     < length (ApprovalWorkflow.stages workflow) →
     ApprovalWorkflow.currentStage (advanceWorkflow workflow).1
     < length (ApprovalWorkflow.stages workflow))
  ∧ ((advanceWorkflow workflow).2 = true →
     ApprovalWorkflow.status (advanceWorkflow workflow).1
     = WorkflowStatus.approved)
  ∧ ((advanceWorkflow workflow).2 = false →
     ApprovalWorkflow.status (advanceWorkflow workflow).1
     = ApprovalWorkflow.status workflow
     ∧ ApprovalWorkflow.currentStage workflow
       < ApprovalWorkflow.currentStage (advanceWorkflow workflow).1
     ∧ ∃ stage,
         ApprovalWorkflow.stages workflow
           !! ApprovalWorkflow.currentStage (advanceWorkflow workflow).1
         = Some stage
         ∧ ApprovalStage.required stage = true).
Proof.
  funelim (advanceWorkflow workflow).
  - pose proof (lookup_lt_Some _ _ _ Hnext) as Hlt.
    destruct (ApprovalStage.required nextStage) eqn:Hrequired; simpl.
    + split_and!; [lia | lia | done |]. intros _.
      split_and!; [done | lia |]. by exists nextStage.
    + match goal with IH : _ ∧ _ ∧ _ ∧ _ |- _ =>
        simpl in IH; destruct IH as (Hle & Hbound & Htrue & Hfalse) end.
      split_and!; [lia | intros _; apply Hbound; lia | done |].
      intros Hresult. destruct (Hfalse Hresult) as (Hstatus & Hlt' & Hstage).
      split_and!; [done | lia | done].
  - simpl. split_and!; [lia | done | done | done].
Qed.

Lemma blank_approve userId now stage :
  blank (ApprovalStage.approve userId now stage) = blank stage.
Proof. reflexivity. Qed.

Lemma blank_insert_approve (stages : list ApprovalStage.t) i stage userId now :
  stages !! i = Some stage →
  blank <$> <[i := ApprovalStage.approve userId now stage]> stages
  = blank <$> stages.
Proof.
  intros Hs. rewrite list_fmap_insert, blank_approve.
  apply list_insert_id. by rewrite list_lookup_fmap, Hs.
Qed.

Lemma required_insert_approve (stages : list ApprovalStage.t) i stage userId now :
  stages !! i = Some stage →
  length (filter (λ s, ApprovalStage.required s = true)
            (<[i := ApprovalStage.approve userId now stage]> stages))
  = length (filter (λ s, ApprovalStage.required s = true) stages).
Proof.
  revert i. induction stages as [|s stages IH]; intros [|i]; simpl; try done.
  - intros [= ->]. rewrite !filter_cons. simpl. by case_decide.
  - intros Hs. rewrite !filter_cons. case_decide; simpl; by rewrite IH.
Qed.

Lemma buildApprovalStages_blank role :
  blank <$> buildApprovalStages role = buildApprovalStages role.
Proof. by destruct role. Qed.

Lemma buildApprovalStages_length role :
  0 < length (buildApprovalStages role).
Proof. destruct role; simpl; lia. Qed.

Lemma store_wellFormed e taskId workflow :
  wellFormed e → wellFormedWorkflow taskId workflow →
  wellFormed (mk (<[taskId := workflow]> (workflows e)) (users e)).
Proof.
  intros [Hws Hus] Hw. split; [|done]. intros key w. simpl.
  destruct (decide (key = taskId)) as [-> | Hne].
  - rewrite lookup_insert_eq. by intros [= <-].
  - rewrite lookup_insert_ne by done. apply Hws.
Qed.

Lemma run_wellFormed c e : wellFormed e → wellFormed (run c e).
Proof.
  intros He. pose proof He as [Hws Hus].
  destruct c as [taskId requesterId | taskId userId now | taskId userId reason
                | taskId userId | user | userId | taskId]; simpl.
  - run_call. destruct (users e !! requesterId) as [requester|]; simpl; [|done].
    apply store_wellFormed; [done|]. split_and!; simpl; try done.
    + eexists. apply buildApprovalStages_blank.
    + apply buildApprovalStages_length.
  - destruct (approve_cases e taskId userId now)
      as [[err ->] | (workflow & user & stage & Hw & Hu & Hs & Hok & ->)];
      [done|].
    simpl. apply store_wellFormed; [done|].
    destruct (Hws _ _ Hw) as (Hid & [role Hrole] & Hcur & Hreq & Hstatus).
    set (recorded := ApprovalWorkflow.set_stages _ workflow).
    destruct (advanceWorkflow_keeps_fields recorded)
      as (Hstages & HtaskId & Hrequired).
    destruct (advanceWorkflow_facts recorded) as (_ & Hbound & _).
    split_and!.
    + by rewrite HtaskId.
    + exists role. rewrite Hstages. simpl.
      by rewrite (blank_insert_approve _ _ _ _ _ Hs).
    + rewrite Hstages. apply Hbound. simpl. by rewrite length_insert.
    + rewrite Hrequired, Hstages. simpl.
      by rewrite (required_insert_approve _ _ _ _ _ Hs).
    + destruct (advanceWorkflow_status recorded) as [-> | ->]; done.
  - run_call. destruct (workflows e !! taskId) as [workflow|] eqn:Hw; simpl;
      [|done].
    destruct (users e !! userId) as [user|]; simpl; [|done].
    apply store_wellFormed; [done|].
    destruct (Hws _ _ Hw) as (Hid & Hrole & Hcur & Hreq & Hstatus).
    by split_and!.
  - run_call. destruct (workflows e !! taskId) as [workflow|] eqn:Hw; simpl;
      [|done].
    destruct (users e !! userId) as [user|]; simpl; [|done].
    case_decide; simpl; [done|].
    apply store_wellFormed; [done|].
    destruct (Hws _ _ Hw) as (Hid & Hrole & Hcur & Hreq & Hstatus).
    by split_and!.
  - split; [done|]. intros key u. simpl.
    destruct (decide (key = User.userId user)) as [-> | Hne].
    + rewrite lookup_insert_eq. by intros [= <-].
    + rewrite lookup_insert_ne by done. apply Hus.
  - split; [done|]. intros key u. simpl.
    intros [_ Hin]%lookup_delete_Some. by apply Hus.
  - split; [|done]. intros key w. simpl.
    intros [_ Hin]%lookup_delete_Some. by apply Hws.
Qed.

(** X18: what the engine keeps true. In every state reached from the
    constructor, each workflow stands under its own task id, its stages
    are those built for some requester role (approvals apart),
    [currentStage] is the index of one of them, [requiredApprovals] is the
    number of required stages and the status is not [expired]; each user
    stands under its own [userId]. So [approve] never throws for want of a
    current stage. *)
Theorem engine_keeps_workflows_well_formed us e :
  reachable (new us) e →
  wellFormed e
  ∧ ∀ taskId userId now e',
      approve taskId userId now e ≠ (e', Throw NoCurrentStage).
Proof.
  intros Hreach.
  assert (He : wellFormed e).
  { induction Hreach as [|e c _ IH]; [|by apply run_wellFormed].
    split.
    - intros key w Hw. simpl in Hw. by rewrite lookup_empty in Hw.
    - intros key user Hu.
      rewrite (proj1 (new_users_lookup us key)) in Hu.
      apply last_Some_elem_of, list_elem_of_filter in Hu. by destruct Hu. }
  split; [done|].
  intros taskId userId now e'. run_call.
  destruct (workflows e !! taskId) as [workflow|] eqn:Hw; simpl; [|done].
  destruct (users e !! userId) as [user|]; simpl; [|done].
  destruct (proj1 He _ _ Hw) as (_ & _ & Hcur & _).
  destruct (lookup_lt_is_Some_2 _ _ Hcur) as [stage ->]. simpl.
  destruct (canApprove user stage); simpl; done.
Qed.

Lemma engine_keeps_workflows_well_formed_witness :
  reachable engine0 engineApproved ∧ wellFormed engineApproved.
Proof.
  assert (Hreach : reachable (new [dev; adm; root]) engineApproved).
  { apply (reachable_run _ _ (EmergencyApprove "T" "U3")).
    apply (reachable_run _ _ (CreateWorkflow "T" "U1")).
    apply reachable_init. }
  split; [exact Hreach|].
  apply (engine_keeps_workflows_well_formed [dev; adm; root] engineApproved
           Hreach).
Defined.

(** ** What a successful [approve] writes *)

(** X19: an [approve] that returns has written the approval on the stage
    that was current and nowhere else: the workflow's stages are the old
    ones with [approvedBy] and [approvedAt] set on that stage, other
    workflows and the users are untouched, and [currentStage] has not gone
    back. When it returns [true] the workflow is [approved]; when it
    returns [false] the status is the old one and the new current stage is
    a later, required stage. *)
Theorem approve_records_on_current_stage e taskId userId now e' result :
  approve taskId userId now e = (e', Return result) →
  ∃ workflow workflow' user stage,
    workflows e !! taskId = Some workflow
    ∧ users e !! userId = Some user
    ∧ ApprovalWorkflow.stages workflow
        !! ApprovalWorkflow.currentStage workflow = Some stage
    ∧ canApprove user stage = true
    ∧ workflows e' = <[taskId := workflow']> (workflows e)
    ∧ users e' = users e
    ∧ ApprovalWorkflow.stages workflow'
      = <[ApprovalWorkflow.currentStage workflow :=
            ApprovalStage.mk (ApprovalStage.level stage)
              (ApprovalStage.role stage) (ApprovalStage.required stage)
              (ApprovalStage.timeout stage) (Some userId) (Some now)]>
          (ApprovalWorkflow.stages workflow)
    ∧ ApprovalWorkflow.currentStage workflow
      ≤ ApprovalWorkflow.currentStage workflow'
    ∧ (result = true →
       ApprovalWorkflow.status workflow' = WorkflowStatus.approved)
    ∧ (result = false →
       ApprovalWorkflow.status workflow' = ApprovalWorkflow.status workflow
       ∧ ApprovalWorkflow.currentStage workflow
         < ApprovalWorkflow.currentStage workflow'
       ∧ ∃ next,
           getCurrentStage taskId e' = Some next
           ∧ ApprovalStage.required next = true).
Proof.
  intros Happrove.
  destruct (approve_cases e taskId userId now)
    as [[err Hthrow] | (workflow & user & stage & Hw & Hu & Hs & Hok & Hrun)].
  { rewrite Hthrow in Happrove. discriminate. }
  rewrite Hrun in Happrove.
  set (recorded := ApprovalWorkflow.set_stages _ workflow) in *.
  injection Happrove as <- <-.
  destruct (advanceWorkflow_keeps_fields recorded)
    as (Hstages & _ & _).
  destruct (advanceWorkflow_facts recorded) as (Hle & _ & Htrue & Hfalse).
  exists workflow, (advanceWorkflow recorded).1, user, stage.
  split_and!; try done.
  intros Hresult. destruct (Hfalse Hresult) as (Hstatus & Hlt & next & Hnext & Hreq).
  split_and!; try done.
  exists next. split; [|done].
  unfold getCurrentStage. simpl. rewrite lookup_insert_eq.
  by rewrite Hstages.
Qed.

Lemma approve_records_on_current_stage_witness :
  ∃ e' result workflow',
    approve "T" "U1" 7 (createWorkflow "T" "U1" engine0).1
    = (e', Return result)
    ∧ workflows e'
      = <["T" := workflow']> (workflows (createWorkflow "T" "U1" engine0).1)
    ∧ ApprovalWorkflow.stages workflow'
      = [ApprovalStage.mk 1 UserRole.developer true 1800000
           (Some "U1") (Some 7%Z); adminStage; superadminStage].
Proof.
  pose proof (approve_allowed (createWorkflow "T" "U1" engine0).1 "T" "U1" 7
                (ApprovalWorkflow.mk "T"
                   [developerStage; adminStage; superadminStage] 0 2
                   WorkflowStatus.pending)
                dev developerStage eq_refl eq_refl eq_refl eq_refl) as Hrun.
  cbn zeta in Hrun.
  destruct (approve_records_on_current_stage _ _ _ _ _ _ Hrun)
    as (workflow & workflow' & user & stage & Hw & _ & Hs & _ & Hws & _
        & Hstages & _).
  injection Hw as <-. injection Hs as <-.
  eexists _, _, workflow'. split; [exact Hrun|]. split; [exact Hws|].
  exact Hstages.
Defined.

(** ** Who may approve next *)

Lemma elem_of_getNextApprovers e taskId user :
  user ∈ getNextApprovers taskId e
  ↔ ∃ stage key,
      getCurrentStage taskId e = Some stage
      ∧ users e !! key = Some user
      ∧ canApprove user stage = true.
Proof.
  unfold getNextApprovers.
  destruct (getCurrentStage taskId e) as [stage|].
  - rewrite list_elem_of_In, filter_In, <- list_elem_of_In, list_elem_of_fmap.
    split.
    + intros [([key u] & -> & Hin%elem_of_map_to_list) Hok].
      by exists stage, key.
    + intros (stage' & key & [= <-] & Hu & Hok). split; [|done].
      exists (key, user). split; [done|]. by apply elem_of_map_to_list.
  - split; [by intros ?%elem_of_nil | by intros (? & ? & ? & _)].
Qed.

(** X20: [getNextApprovers] lists the users whose approval would be
    accepted. In every state reached from the constructor, a user is in
    the list for a task exactly when the user is registered and [approve]
    for that task under the user's id returns instead of throwing; and
    when the task has no current stage the list is empty. *)
Theorem getNextApprovers_are_those_approve_accepts us e taskId :
  reachable (new us) e →
  (getCurrentStage taskId e = None → getNextApprovers taskId e = [])
  ∧ ∀ user now,
      user ∈ getNextApprovers taskId e
      ↔ users e !! User.userId user = Some user
        ∧ ∃ e' result,
            approve taskId (User.userId user) now e = (e', Return result).
Proof.
  intros Hreach.
  assert (He : wellFormed e).
  { induction Hreach as [|e c _ IH]; [|by apply run_wellFormed].
    split.
    - intros key w Hw. simpl in Hw. by rewrite lookup_empty in Hw.
    - intros key user Hu.
      rewrite (proj1 (new_users_lookup us key)) in Hu.
      apply last_Some_elem_of, list_elem_of_filter in Hu. by destruct Hu. }
  split.
  { intros Hnone. unfold getNextApprovers. by rewrite Hnone. }
  intros user now. rewrite elem_of_getNextApprovers. split.
  - intros (stage & key & Hstage & Hu & Hok).
    pose proof (proj2 He _ _ Hu) as Hkey. subst key. split; [done|].
    unfold getCurrentStage in Hstage.
    destruct (workflows e !! taskId) as [workflow|] eqn:Hw; [|done].
    eexists _, _.
    exact (approve_allowed e taskId (User.userId user) now workflow user stage
             Hw Hu Hstage Hok).
  - intros [Hu (e' & result & Happrove)].
    destruct (approve_cases e taskId (User.userId user) now)
      as [[err Hthrow] | (workflow & user' & stage & Hw & Hu' & Hs & Hok & _)].
    { rewrite Hthrow in Happrove. discriminate. }
    rewrite Hu in Hu'. injection Hu' as <-.
    exists stage, (User.userId user). split_and!; try done.
    unfold getCurrentStage. by rewrite Hw.
Qed.

Lemma getNextApprovers_are_those_approve_accepts_witness :
  reachable engine0 (createWorkflow "T" "U1" engine0).1
  ∧ adm ∈ getNextApprovers "T" (createWorkflow "T" "U1" engine0).1.
Proof.
  assert (Hreach : reachable (new [dev; adm; root])
                     (createWorkflow "T" "U1" engine0).1).
  { apply (reachable_run _ _ (CreateWorkflow "T" "U1")). apply reachable_init. }
  split; [exact Hreach|].
  apply (proj2 (getNextApprovers_are_those_approve_accepts
                  [dev; adm; root] _ "T" Hreach) adm 7%Z).
  split; [reflexivity|]. eexists _, _.
  exact (approve_allowed (createWorkflow "T" "U1" engine0).1 "T" "U2" 7
           (ApprovalWorkflow.mk "T"
              [developerStage; adminStage; superadminStage] 0 2
              WorkflowStatus.pending)
           adm developerStage eq_refl eq_refl eq_refl eq_refl).
Defined.

End ApprovalEngineFurther.
